(** * The malleable MPI-job scheduler of the MPI operator

    A shallow embedding of [pkg/controller/mpi_job_controller.go] (the
    priority queues, the slot ledger, admission with preemption, the
    completion clean-up with its expansion loop, the reconcile function
    [syncHandler]) and of the C rescale client that the controller runs to
    signal a launcher.

    Conventions of the embedding.
    - Go's [int32] values are integers of [Z] with the wrap-around written
      out by [int32]; Go's [int] (64 bits) and the [float64] round trips of
      [math.Min] / [math.Max] are exact on every value below [2^53] and are
      taken as exact.
    - Go maps are [gmap]s; reading a missing key yields the zero value
      ([zeroZ] for numbers, [zeroS] for strings).
    - The controller object is threaded explicitly through a small state
      monad whose results also record run-time panics and loops that never
      return.
    - Everything the controller reads from the cluster (the informer caches)
      or asks of it (API writes, the rescale call) is a field of the record
      [Cluster], fixed for the time of one reconcile. *)

From Stdlib Require Import ZArith Lia Ascii String DecimalString DecimalZ Sorted.
From stdpp Require Import base option list gmap strings sorting.

Local Open Scope Z_scope.

(** ** Machine integers *)

(** Conversion to a Go [int32] (and to a C [int]): two's complement
    wrap-around. *)
Definition int32 (z : Z) : Z := (z + 2 ^ 31) `mod` 2 ^ 32 - 2 ^ 31.

Definition INT_MIN : Z := - 2 ^ 31.
Definition INT_MAX : Z := 2 ^ 31 - 1.

Definition in_int32 (z : Z) : Prop := INT_MIN <= z <= INT_MAX.

(** ** Decimal text: [fmt.Sprint] of an integer, C's [%d] *)

(** [fmt.Sprint(n)]: the decimal digits, with a leading minus sign for a
    negative number. *)
Definition Sprint (z : Z) : string := NilZero.string_of_int (Z.to_int z).

Definition digit_of_ascii (c : ascii) : option (Decimal.uint -> Decimal.uint) :=
  if Ascii.eqb c "0" then Some Decimal.D0
  else if Ascii.eqb c "1" then Some Decimal.D1
  else if Ascii.eqb c "2" then Some Decimal.D2
  else if Ascii.eqb c "3" then Some Decimal.D3
  else if Ascii.eqb c "4" then Some Decimal.D4
  else if Ascii.eqb c "5" then Some Decimal.D5
  else if Ascii.eqb c "6" then Some Decimal.D6
  else if Ascii.eqb c "7" then Some Decimal.D7
  else if Ascii.eqb c "8" then Some Decimal.D8
  else if Ascii.eqb c "9" then Some Decimal.D9
  else None.

(** The longest prefix of decimal digits of a string. *)
Fixpoint scan_digits (s : string) : Decimal.uint :=
  match s with
  | EmptyString => Decimal.Nil
  | String c s' =>
      match digit_of_ascii c with
      | Some d => d (scan_digits s')
      | None => Decimal.Nil
      end
  end.

Definition no_digit (d : Decimal.uint) : bool :=
  match d with
  | Decimal.Nil => true
  | _ => false
  end.

Definition isspace (c : ascii) : bool :=
  let n := nat_of_ascii c in
  (Nat.eqb n 32 || (Nat.leb 9 n && Nat.leb n 13))%bool.

Fixpoint skip_space (s : string) : string :=
  match s with
  | String c s' => if isspace c then skip_space s' else s
  | EmptyString => s
  end.

(** [sscanf(s, "%d", &x)]: white space, an optional sign, then at least one
    digit; what follows the digits is left unread.  [None] stands for the
    runs that leave [x] unset (no digit) or overflow the [int]. *)
Definition sscanf_d (s : string) : option Z :=
  let s := skip_space s in
  let '(neg, body) :=
    match s with
    | String c s' =>
        if Ascii.eqb c "-" then (true, s')
        else if Ascii.eqb c "+" then (false, s')
        else (false, s)
    | EmptyString => (false, s)
    end in
  let d := scan_digits body in
  if no_digit d then None
  else
    let v := Z.of_int (if neg then Decimal.Neg d else Decimal.Pos d) in
    if bool_decide (INT_MIN <= v <= INT_MAX) then Some v else None.

(** ** Priority queues *)

Inductive CleanPodPolicy := CleanPodPolicyNone | CleanPodPolicyRunning | CleanPodPolicyAll.

(** The fields of an [MPIJob] that the scheduler reads.  The pointers
    [Spec.Priority], [MinReplicas], [MaxReplicas] and [CleanPodPolicy] and
    the worker replica spec are taken as set (the API defaults fill them). *)
Record MPIJob := {
  Namespace : string;
  Name : string;
  Priority : Z;                      (* *Spec.Priority, an int32 *)
  MinReplicas : Z;                   (* worker MinReplicas, an int32 *)
  MaxReplicas : Z;                   (* worker MaxReplicas, an int32 *)
  SlotsPerWorker : Z;                (* ptr.Deref(Spec.SlotsPerWorker, 1) *)
  RunLauncherAsWorker : bool;        (* ptr.Deref(Spec.RunLauncherAsWorker, false) *)
  cleanPodPolicy : CleanPodPolicy;   (* Spec.RunPolicy.CleanPodPolicy *)
  Suspend : bool;                    (* Spec.RunPolicy.Suspend *)
  DeletionTimestamp : bool;          (* DeletionTimestamp != nil *)
  isFinished : bool;                 (* isFinished(Status) *)
  CompletionTime : bool              (* Status.CompletionTime != nil *)
}.

(** An [Item] is something managed in a priority queue. *)
Record Item := {
  mpiJob : MPIJob;
  priority : Z
}.

(** A [PriorityQueue] is a slice of items. *)
Abbreviation PriorityQueue := (list Item).

Definition Less (pq : PriorityQueue) (i j : nat) : option bool :=
  a ← pq !! i; b ← pq !! j; Some (priority a <? priority b).

(** [cmp.Compare] on the priorities: -1, 0 or +1. *)
Definition compare (a b : Item) : Z :=
  match priority a ?= priority b with
  | Lt => -1
  | Eq => 0
  | Gt => 1
  end.

(** [slices.SortFunc]: ascending for [cmp].  Go leaves the order of equal
    elements open; the model keeps them in their order of arrival, which no
    statement below relies on. *)
Fixpoint sort_insert {A} (cmp : A -> A -> Z) (x : A) (l : list A) : list A :=
  match l with
  | [] => [x]
  | y :: l' => if cmp y x <=? 0 then y :: sort_insert cmp x l' else x :: l
  end.

Definition SortFunc {A} (cmp : A -> A -> Z) (l : list A) : list A :=
  foldl (fun acc x => sort_insert cmp x acc) [] l.

Definition Push (pq : PriorityQueue) (x : Item) : PriorityQueue :=
  SortFunc compare (pq ++ [x]).

(** [Pop] takes the last entry off; on an empty queue [old[n-1]] panics
    ([None]). *)
Definition Pop (pq : PriorityQueue) : option (Item * PriorityQueue) :=
  match last pq with
  | None => None
  | Some item => Some (item, take (length pq - 1)%nat pq)
  end.

(** [update] sets the priority of the entry at a position and sorts again. *)
Definition update (pq : PriorityQueue) (i : nat) (p : Z) : PriorityQueue :=
  SortFunc compare (alter (fun it => {| mpiJob := mpiJob it; priority := p |}) i pq).

Definition getJobKey (j : MPIJob) : string := Namespace j +:+ "/" +:+ Name j.

(** ** Errors and results *)

(** A Go [error]: the sentinel [jobQueuedError], compared by identity in the
    controller, or any other error, kept by its message. *)
Inductive error :=
| jobQueuedError
| Errorf (msg : string).

Global Instance error_eq_dec : EqDecision error.
Proof. solve_decision. Defined.

(** A lookup in an informer cache. *)
Inductive GetResult (A : Type) :=
| Found (a : A)
| NotFound
| GetError (e : error).
Arguments Found {A} a.
Arguments NotFound {A}.
Arguments GetError {A} e.

(** ** The rescale client (the C program run as [./opt/rescale_client]) *)

Module RescaleClient.

(** What the CCS library calls answer: each one fails with [-1] or not. *)
Record CcsServer := {
  CcsConnect : bool;
  CcsSendRequest : bool;
  CcsRecvResponse : bool
}.

Inductive Mode := EXPAND | SHRINK.

Definition BUF : Z := 255.

(** One run of the program: what it printed, its exit status, and the
    request it handed to [CcsSendRequest] (handler name, size, bytes), when
    it got that far. *)
Record Run := {
  stdout : string;
  exit_code : Z;
  request : option (string * Z * list Z)
}.

(** The four bytes of a C [int] as [memcpy] finds them on a little-endian
    machine (x86-64, arm64): two's complement, lowest byte first. *)
Definition int_bytes (n : Z) : list Z :=
  [Z.land n 255; Z.land (Z.shiftr n 8) 255;
   Z.land (Z.shiftr n 16) 255; Z.land (Z.shiftr n 24) 255].

(** The two [for] loops that fill [bitmap[0 .. OLDNPROCS-1]]. *)
Definition fill_bitmap (mode : Mode) (OLDNPROCS NEWNPROCS : Z) : list Z :=
  (fun i =>
     match mode with
     | EXPAND => 1
     | SHRINK => if i <? NEWNPROCS then 1 else 0
     end) <$> seqZ 0 OLDNPROCS.

(** The whole buffer after the [memcpy] and the closing ['\0']. *)
Definition message (mode : Mode) (OLDNPROCS NEWNPROCS : Z) : list Z :=
  fill_bitmap mode OLDNPROCS NEWNPROCS ++ int_bytes NEWNPROCS ++ [0].

(** [main] from the connection on.  [None] is undefined behaviour: an
    unread port, a negative [OLDNPROCS] (the [memcpy] lands before the
    buffer) or a [cmdLen] beyond [int]. *)
Definition connect_and_send (server : CcsServer) (port : option Z)
    (mode : Mode) (OLDNPROCS NEWNPROCS : Z) : option Run :=
  _ ← port;
  if negb (CcsConnect server) then
    Some {| stdout := "0"; exit_code := 0; request := None |}
  else
    let cmdLen := OLDNPROCS * 1 + 4 + 1 in
    if bool_decide (0 <= OLDNPROCS ∧ cmdLen <= INT_MAX) then
      let bitmap := message mode OLDNPROCS NEWNPROCS in
      let req := Some ("set_bitmap"%string, cmdLen, bitmap) in
      if negb (CcsSendRequest server) then
        Some {| stdout := "0"; exit_code := 0; request := req |}
      else if negb (CcsRecvResponse server) then
        Some {| stdout := "0"; exit_code := 0; request := req |}
      else
        Some {| stdout := "1"; exit_code := 0; request := req |}
    else None.

Definition main (server : CcsServer) (argv : list string) : option Run :=
  let argc := Z.of_nat (length argv) in
  if argc <? 5 then
    Some {| stdout := "Usage: " +:+ default ""%string (argv !! 0%nat)
                        +:+ " <hostname> <port> <oldprocs> <newprocs> " +:+ String "010" "";
            exit_code := 1; request := None |}
  else
    host ← argv !! 1%nat;
    a2 ← argv !! 2%nat;
    a3 ← argv !! 3%nat;
    a4 ← argv !! 4%nat;
    (* sprintf(host, "%s", argv[1]) into char host[BUF] *)
    if negb (Z.of_nat (String.length host) <? BUF) then None
    else
      let port := sscanf_d a2 in
      OLDNPROCS ← sscanf_d a3;
      NEWNPROCS ← sscanf_d a4;
      if NEWNPROCS >? OLDNPROCS then
        connect_and_send server port EXPAND OLDNPROCS NEWNPROCS
      else if OLDNPROCS >? NEWNPROCS then
        connect_and_send server port SHRINK OLDNPROCS NEWNPROCS
      else
        Some {| stdout := "0"; exit_code := 0; request := None |}.

End RescaleClient.

(** ** Signalling a launcher *)

(** [exec.Command("./opt/rescale_client", args...).CombinedOutput()]: the
    text the program printed and an error when it could not be started, was
    killed, or exited with a status other than 0. *)
Definition CombinedOutput (installed : bool) (server : RescaleClient.CcsServer)
    (args : list string) : string * option error :=
  if installed then
    match RescaleClient.main server ("./opt/rescale_client"%string :: args) with
    | Some run =>
        (RescaleClient.stdout run,
         if RescaleClient.exit_code run =? 0 then None
         else Some (Errorf ("exit status " +:+ Sprint (RescaleClient.exit_code run))))
    | None => (""%string, Some (Errorf "signal: segmentation fault"))
    end
  else (""%string, Some (Errorf "no such file or directory")).

Definition ccsPort : Z := 1234.

Definition signalRescale (installed : bool) (server : RescaleClient.CcsServer)
    (ipAddr : string) (port oldProcs newProcs : Z) : option error :=
  let '(out, err) :=
    CombinedOutput installed server
      [ipAddr; Sprint port; Sprint oldProcs; Sprint newProcs] in
  if String.eqb out "0" then Some (Errorf ("Error: " +:+ out))
  else match err with
       | Some e => Some e
       | None => None
       end.

(** ** The cluster as one reconcile sees it *)

Inductive PodPhase := PodPending | PodRunning | PodSucceeded | PodFailed | PodUnknown.

Global Instance PodPhase_eq_dec : EqDecision PodPhase.
Proof. solve_decision. Defined.

Record Pod := {
  podName : string;
  ReplicaIndexLabel : option string;   (* Labels[kubeflow.ReplicaIndexLabel] *)
  Phase : PodPhase;                    (* Status.Phase *)
  PodReady : bool;                     (* a PodReady condition with status True *)
  podControlled : bool;                (* metav1.IsControlledBy(pod, its MPIJob) *)
  PodIP : string                       (* Status.PodIP *)
}.

(** The launcher [batchv1.Job] of an MPIJob. *)
Record Job := {
  jobControlled : bool;                (* metav1.IsControlledBy(launcher, mpiJob) *)
  isJobFinished : bool;
  jobSuspend : bool                    (* ptr.Deref(Spec.Suspend, false) *)
}.

Record ConfigMap := {
  cmControlled : bool;                 (* metav1.IsControlledBy(cm, mpiJob) *)
  Data : gmap string string
}.

Inductive DeleteResult := Deleted | DeleteNotFound | DeleteError (e : error).

(** The informer caches (what the listers return) and the answers of the
    API server and of the launchers, for one reconcile.  Jobs, config maps
    and pod lists are looked up by the key of their MPIJob, single pods by
    their name. *)
Record Cluster := {
  mpiJobLister : string -> GetResult MPIJob;
  ValidateMPIJob : MPIJob -> bool;                 (* no validation error *)
  jobLister : string -> GetResult Job;
  jobPods : string -> list Pod + error;            (* the launcher's pods *)
  podLister : string -> list Pod;                  (* the worker pods of a job *)
  podListError : string -> option error;           (* List(selector) failing *)
  configMapLister : string -> GetResult ConfigMap;
  createPod : string -> option error;
  deletePod : string -> DeleteResult;
  createConfigMap : string -> option error;
  updateConfigMap : string -> option error;
  createLauncher : string -> option error;
  updateLauncher : string -> option error;
  getOrCreateService : string -> option error;
  getOrCreateSSHAuthSecret : string -> option error;
  PodGroupCtrl : bool;                             (* PodGroupCtrl != nil *)
  getOrCreatePodGroups : string -> bool * option error;  (* podGroup != nil, err *)
  deletePodGroups : string -> option error;
  updateMPIJobStatus : string -> option error;
  updateStatusHandler : string -> option error;
  rescaleClientInstalled : bool;
  ccsServer : string -> RescaleClient.CcsServer    (* by launcher pod IP *)
}.

(** ** The controller object *)

Record MPIJobController := {
  latestReplicas : gmap string Z;
  configMaps : gmap string string;
  jobStatus : gmap string string;
  deferredAction : gmap string string;
  oldExpandReplicas : gmap string Z;
  runningJobs : PriorityQueue;
  queuedJobs : PriorityQueue;
  freeSlots : Z;
  queue : list string     (* the keys given to queue.AddRateLimited, in order *)
}.

Definition expand : string := "expand".
Definition noop : string := "noop".
Definition created : string := "created".
Definition queued : string := "queued".
Definition running : string := "running".
Definition completed : string := "completed".

(** Reading a Go map: the zero value for a missing key. *)
Definition zeroZ (m : gmap string Z) (k : string) : Z := default 0 (m !! k).
Definition zeroS (m : gmap string string) (k : string) : string := default ""%string (m !! k).

Definition NewMPIJobController : MPIJobController :=
  {| latestReplicas := ∅; configMaps := ∅; jobStatus := ∅; deferredAction := ∅;
     oldExpandReplicas := ∅; runningJobs := []; queuedJobs := [];
     freeSlots := 10; queue := [] |}.

Definition set_latestReplicas (f : gmap string Z -> gmap string Z) (c : MPIJobController) :=
  {| latestReplicas := f (latestReplicas c); configMaps := configMaps c;
     jobStatus := jobStatus c; deferredAction := deferredAction c;
     oldExpandReplicas := oldExpandReplicas c; runningJobs := runningJobs c;
     queuedJobs := queuedJobs c; freeSlots := freeSlots c; queue := queue c |}.
Definition set_configMaps (f : gmap string string -> gmap string string) (c : MPIJobController) :=
  {| latestReplicas := latestReplicas c; configMaps := f (configMaps c);
     jobStatus := jobStatus c; deferredAction := deferredAction c;
     oldExpandReplicas := oldExpandReplicas c; runningJobs := runningJobs c;
     queuedJobs := queuedJobs c; freeSlots := freeSlots c; queue := queue c |}.
Definition set_jobStatus (f : gmap string string -> gmap string string) (c : MPIJobController) :=
  {| latestReplicas := latestReplicas c; configMaps := configMaps c;
     jobStatus := f (jobStatus c); deferredAction := deferredAction c;
     oldExpandReplicas := oldExpandReplicas c; runningJobs := runningJobs c;
     queuedJobs := queuedJobs c; freeSlots := freeSlots c; queue := queue c |}.
Definition set_deferredAction (f : gmap string string -> gmap string string) (c : MPIJobController) :=
  {| latestReplicas := latestReplicas c; configMaps := configMaps c;
     jobStatus := jobStatus c; deferredAction := f (deferredAction c);
     oldExpandReplicas := oldExpandReplicas c; runningJobs := runningJobs c;
     queuedJobs := queuedJobs c; freeSlots := freeSlots c; queue := queue c |}.
Definition set_oldExpandReplicas (f : gmap string Z -> gmap string Z) (c : MPIJobController) :=
  {| latestReplicas := latestReplicas c; configMaps := configMaps c;
     jobStatus := jobStatus c; deferredAction := deferredAction c;
     oldExpandReplicas := f (oldExpandReplicas c); runningJobs := runningJobs c;
     queuedJobs := queuedJobs c; freeSlots := freeSlots c; queue := queue c |}.
Definition set_runningJobs (f : PriorityQueue -> PriorityQueue) (c : MPIJobController) :=
  {| latestReplicas := latestReplicas c; configMaps := configMaps c;
     jobStatus := jobStatus c; deferredAction := deferredAction c;
     oldExpandReplicas := oldExpandReplicas c; runningJobs := f (runningJobs c);
     queuedJobs := queuedJobs c; freeSlots := freeSlots c; queue := queue c |}.
Definition set_queuedJobs (f : PriorityQueue -> PriorityQueue) (c : MPIJobController) :=
  {| latestReplicas := latestReplicas c; configMaps := configMaps c;
     jobStatus := jobStatus c; deferredAction := deferredAction c;
     oldExpandReplicas := oldExpandReplicas c; runningJobs := runningJobs c;
     queuedJobs := f (queuedJobs c); freeSlots := freeSlots c; queue := queue c |}.
Definition set_freeSlots (f : Z -> Z) (c : MPIJobController) :=
  {| latestReplicas := latestReplicas c; configMaps := configMaps c;
     jobStatus := jobStatus c; deferredAction := deferredAction c;
     oldExpandReplicas := oldExpandReplicas c; runningJobs := runningJobs c;
     queuedJobs := queuedJobs c; freeSlots := f (freeSlots c); queue := queue c |}.
(** [c.queue.AddRateLimited(key)] *)
Definition AddRateLimited (key : string) (c : MPIJobController) :=
  {| latestReplicas := latestReplicas c; configMaps := configMaps c;
     jobStatus := jobStatus c; deferredAction := deferredAction c;
     oldExpandReplicas := oldExpandReplicas c; runningJobs := runningJobs c;
     queuedJobs := queuedJobs c; freeSlots := freeSlots c; queue := queue c ++ [key] |}.

(** ** The monad of controller methods *)

(** How a call ends: it returns, it panics, or it never returns (the loop
    ran through all the fuel it was given). *)
Inductive outcome (A : Type) :=
| Return (a : A)
| Panic (msg : string)
| Diverge.
Arguments Return {A} a.
Arguments Panic {A} msg.
Arguments Diverge {A}.

Definition M (A : Type) : Type := MPIJobController -> outcome A * MPIJobController.

Definition ret {A} (a : A) : M A := fun c => (Return a, c).
Definition bind {A B} (m : M A) (f : A -> M B) : M B :=
  fun c =>
    match m c with
    | (Return a, c') => f a c'
    | (Panic msg, c') => (Panic msg, c')
    | (Diverge, c') => (Diverge, c')
    end.
Definition panic {A} (msg : string) : M A := fun c => (Panic msg, c).
Definition diverge {A} : M A := fun c => (Diverge, c).
Definition get : M MPIJobController := fun c => (Return c, c).
Definition modify (f : MPIJobController -> MPIJobController) : M unit :=
  fun c => (Return tt, f c).

Global Instance M_ret : MRet M := @ret.
Global Instance M_bind : MBind M := fun A B f m => bind m f.

(** One turn of a Go [for] loop: go round again, [break], or [return]. *)
Inductive turn (S R : Type) :=
| Continue (s : S)
| Break (s : S)
| Exit (r : R).
Arguments Continue {S R} s.
Arguments Break {S R} s.
Arguments Exit {S R} r.

(** A [for { ... }] loop over the loop variables [s]: [inl] the variables at
    the [break], [inr] the value returned from inside the loop. *)
Fixpoint for_loop {S R} (fuel : nat) (body : S -> M (turn S R)) (s : S) : M (S + R) :=
  match fuel with
  | O => diverge
  | Datatypes.S fuel' =>
      t ← body s;
      match t with
      | Continue s' => for_loop fuel' body s'
      | Break s' => ret (inl s')
      | Exit r => ret (inr r)
      end
  end.

(** ** Controller methods *)

Section Controller.

Variable cl : Cluster.

Definition MessageResourceExists : string :=
  "Resource already exists and is not managed by MPIJob".

Definition isPodRunning (p : Pod) : bool := bool_decide (Phase p = PodRunning).
Definition isPodPending (p : Pod) : bool := bool_decide (Phase p = PodPending).

Definition isCleanUpPods (cleanPodPolicy : CleanPodPolicy) : bool :=
  match cleanPodPolicy with
  | CleanPodPolicyAll | CleanPodPolicyRunning => true
  | CleanPodPolicyNone => false
  end.

(** The worker pods of a job with phase Running. *)
Definition getRunningWorkerPods (job : MPIJob) : list Pod + error :=
  match podListError cl (getJobKey job) with
  | Some err => inr err
  | None => inl (filter (fun pod => Phase pod = PodRunning) (podLister cl (getJobKey job)))
  end.

(** The launcher Job controlled by this MPIJob: [(launcher, err)]. *)
Definition getLauncherJob (job : MPIJob) : option Job * option error :=
  match jobLister cl (getJobKey job) with
  | NotFound => (None, None)
  | GetError err => (None, Some err)
  | Found launcher =>
      if negb (jobControlled launcher)
      then (Some launcher, Some (Errorf MessageResourceExists))
      else (Some launcher, None)
  end.

Definition sendRescaleSignal (job : MPIJob) (oldPodCount newPodCount : Z) : option error :=
  match getLauncherJob job with
  | (_, Some err) => Some err
  | (None, None) => None
  | (Some launcher, None) =>
      match jobPods cl (getJobKey job) with
      | inr err => Some err
      | inl [] => None
      | inl (pod :: _) =>
          let ipAddr := PodIP pod in
          signalRescale (rescaleClientInstalled cl) (ccsServer cl ipAddr)
            ipAddr ccsPort oldPodCount newPodCount
      end
  end.

(** *** Admission: [calculateWorkerReplicas] *)

(** The first loop (the dry run) over the loop variables
    [(numWorkersToFree, index)]. *)
Definition dryRun (job : MPIJob) (s : Z * Z) : M (turn (Z * Z) (Z * option error)) :=
  let '(numWorkersToFree, index) := s in
  if (numWorkersToFree =? 0) || (index <? 0) then ret (Break s)
  else
    c ← get;
    match runningJobs c !! Z.to_nat index with
    | None => panic "index out of range"
    | Some it =>
        let index := index - 1 in
        if Priority (mpiJob it) >? Priority job then ret (Break (numWorkersToFree, index))
        else
          match getRunningWorkerPods (mpiJob it) with
          | inr err => ret (Exit (-1, Some err))
          | inl workerPodList =>
              let len := Z.of_nat (length workerPodList) in
              let jobMinReplicas := MinReplicas (mpiJob it) in
              if int32 len >? jobMinReplicas then
                let newPodCount := int32 (Z.max jobMinReplicas (len - numWorkersToFree)) in
                ret (Continue (int32 (numWorkersToFree - int32 (len - newPodCount)), index))
              else ret (Continue (numWorkersToFree, index))
          end
    end.

(** The second loop, which signals the victims and moves the ledger. *)
Definition commit (job : MPIJob) (s : Z * Z) : M (turn (Z * Z) (Z * option error)) :=
  let '(numWorkersToFree, index) := s in
  if (numWorkersToFree =? 0) || (index <? 0) then ret (Break s)
  else
    c ← get;
    match runningJobs c !! Z.to_nat index with
    | None => panic "index out of range"
    | Some it =>
        (* if the running job priority is higher than the new job don't shrink it *)
        if Priority (mpiJob it) >? Priority job then ret (Break s)
        else if negb (String.eqb (zeroS (jobStatus c) (getJobKey (mpiJob it))) running)
        then ret (Continue s)
        else
          let index := index - 1 in
          match getRunningWorkerPods (mpiJob it) with
          | inr err => ret (Exit (-1, Some err))
          | inl workerPodList =>
              let len := Z.of_nat (length workerPodList) in
              let jobMinReplicas := MinReplicas (mpiJob it) in
              if int32 len >? jobMinReplicas then
                let newPodCount := int32 (Z.max jobMinReplicas (len - numWorkersToFree)) in
                match sendRescaleSignal (mpiJob it) (int32 len) newPodCount with
                | Some _ =>
                    (* don't remove pods if the signal failed *)
                    ret (Continue (numWorkersToFree, index))
                | None =>
                    modify (set_latestReplicas <[getJobKey (mpiJob it) := newPodCount]>);;
                    modify (set_freeSlots (fun n => n + (len - newPodCount)));;
                    modify (AddRateLimited (getJobKey (mpiJob it)));;
                    ret (Continue (int32 (numWorkersToFree - int32 (len - newPodCount)), index))
                end
              else ret (Continue (numWorkersToFree, index))
          end
    end.

(** For a new job, how many worker replicas to use: [(replicas, err)]. *)
Definition calculateWorkerReplicas (fuel : nat) (job : MPIJob) : M (Z * option error) :=
  c ← get;
  let replicas := int32 (Z.min (freeSlots c - 1) (MaxReplicas job)) in
  if replicas <? MinReplicas job then
    (* shrink running jobs only when the new job cannot even run at min config *)
    let numWorkersToFree := int32 (MinReplicas job - int32 (freeSlots c) + 1) in
    let index := Z.of_nat (length (runningJobs c)) - 1 in
    r ← for_loop fuel (dryRun job) (numWorkersToFree, index);
    match r with
    | inr v => ret v
    | inl (numWorkersToFree, _) =>
        if numWorkersToFree >? 0 then ret (-1, Some jobQueuedError)
        else
          let numWorkersToFree := int32 (MinReplicas job - int32 (freeSlots c) + 1) in
          let index := Z.of_nat (length (runningJobs c)) - 1 in
          r ← for_loop fuel (commit job) (numWorkersToFree, index);
          match r with
          | inr v => ret v
          | inl (numWorkersToFree, _) =>
              if numWorkersToFree >? 0 then ret (-1, Some jobQueuedError)
              else ret (MinReplicas job, None)
          end
    end
  else ret (replicas, None).

(** *** Worker pods *)

Definition workerSuffix : string := "-worker".
Definition launcherSuffix : string := "-launcher".
Definition hostfileName : string := "hostfile".
Definition discoverHostsScriptName : string := "discover_hosts.sh".
Definition newline : string := String "010" "".

Definition workerName (job : MPIJob) (index : Z) : string :=
  Name job +:+ workerSuffix +:+ "-" +:+ Sprint index.

(** [podLister.Pods(namespace).Get(name)] for a worker pod of the job;
    [None] is NotFound. *)
Definition getPod (job : MPIJob) (name : string) : option Pod :=
  List.find (fun pod => String.eqb (podName pod) name) (podLister cl (getJobKey job)).

(** The pod that [newWorker] describes, as the API hands it back. *)
Definition newWorker (job : MPIJob) (index : Z) : Pod :=
  {| podName := workerName job index;
     ReplicaIndexLabel := Some (Sprint index);
     Phase := PodPending;
     PodReady := false;
     podControlled := true;
     PodIP := "" |}.

(** [strconv.Atoi]: an optional sign and nothing but digits. *)
Definition Atoi (s : string) : option Z :=
  let '(neg, body) :=
    match s with
    | String c s' =>
        if Ascii.eqb c "-" then (true, s')
        else if Ascii.eqb c "+" then (false, s')
        else (false, s)
    | EmptyString => (false, s)
    end in
  let d := scan_digits body in
  if (Nat.eqb (Decimal.nb_digits d) (String.length body) && negb (Nat.eqb (String.length body) 0))%bool
  then Some (Z.of_int (if neg then Decimal.Neg d else Decimal.Pos d))
  else None.

(** Adds a new worker to the job: [(pod, err)]. *)
Definition addWorker (job : MPIJob) (workerIndex : Z) : M (option Pod * option error) :=
  match getPod job (workerName job workerIndex) with
  | None =>
      (* If the worker Pod doesn't exist, we'll create it. *)
      let worker := newWorker job workerIndex in
      let err := createPod cl (workerName job workerIndex) in
      modify (set_freeSlots (fun n => n - 1));;
      match err with
      | Some e => ret (None, Some e)
      | None => ret (Some worker, None)
      end
  | Some pod =>
      if negb (podControlled pod) then ret (None, Some (Errorf MessageResourceExists))
      else ret (Some pod, None)
  end.

Definition enqueueJobInternal (job : MPIJob) : M unit :=
  c ← get;
  if existsb (fun item => String.eqb (getJobKey (mpiJob item)) (getJobKey job)) (queuedJobs c)
  then ret tt
  else
    modify (set_queuedJobs (fun pq => Push pq {| mpiJob := job; priority := Priority job |}));;
    modify (set_jobStatus <[getJobKey job := queued]>).

(** The deletions of [getOrCreateWorker] when replicas are scaled down:
    [Some r] when the loop returns [r] from the function. *)
Fixpoint deleteScaledDown (latest : Z) (pods : list Pod) : option (list Pod * option error) :=
  match pods with
  | [] => None
  | pod :: pods' =>
      match ReplicaIndexLabel pod with
      | None => Some ([], None)
      | Some indexStr =>
          match Atoi indexStr with
          | Some index =>
              if index >=? latest then
                match deletePod cl (podName pod) with
                | Deleted => deleteScaledDown latest pods'
                | DeleteNotFound => Some ([], Some (Errorf "not found"))
                | DeleteError e => Some ([], Some e)
                end
              else deleteScaledDown latest pods'
          | None => deleteScaledDown latest pods'
          end
      end
  end.

(** The loop [for i := 0; i < latestReplicas; i++] of [getOrCreateWorker],
    over the indices still to do. *)
Fixpoint addWorkers (job : MPIJob) (indices : list Z) (workerPods : list Pod)
    : M (list Pod * option error) :=
  match indices with
  | [] => ret (workerPods, None)
  | i :: indices' =>
      '(pod, err) ← addWorker job i;
      match err, pod with
      | Some e, _ => ret (workerPods, Some e)
      | None, Some pod => addWorkers job indices' (workerPods ++ [pod])
      | None, None => addWorkers job indices' workerPods
      end
  end.

(** Gets the worker pods controlled by this MPIJob, or creates them. *)
Definition getOrCreateWorker (job : MPIJob) : M (list Pod * option error) :=
  match podListError cl (getJobKey job) with
  | Some err => ret ([], Some err)
  | None =>
      let podFullList := podLister cl (getJobKey job) in
      c ← get;
      let latest := zeroZ (latestReplicas c) (getJobKey job) in
      if latest - Z.of_nat (length podFullList) >? freeSlots c
      then ret (podFullList, Some jobQueuedError)
      else
        match (if Z.of_nat (length podFullList) >? latest
               then deleteScaledDown latest podFullList else None) with
        | Some r => ret r
        | None => addWorkers job (seqZ 0 latest) []
        end
  end.

Definition removeWorker (job : MPIJob) (index : Z) : M (option error) :=
  let name := workerName job index in
  match getPod job name with
  | None => ret None
  | Some pod =>
      if negb (podControlled pod) then ret (Some (Errorf MessageResourceExists))
      else if (match cleanPodPolicy job with CleanPodPolicyRunning => true | _ => false end)
                && negb (isPodRunning pod) && negb (isPodPending pod)
      then ret None   (* keep the worker pod *)
      else
        match deletePod cl name with
        | DeleteError e => ret (Some e)
        | Deleted | DeleteNotFound =>
            modify (set_freeSlots (fun n => n + 1));;
            ret None
        end
  end.

Fixpoint removeWorkers (job : MPIJob) (indices : list Z) : M unit :=
  match indices with
  | [] => ret tt
  | i :: indices' => removeWorker job i;; removeWorkers job indices'
  end.

Definition deleteWorkerPods (job : MPIJob) : M (option error) :=
  removeWorkers job (seqZ 0 (MaxReplicas job));;
  ret None.

Definition cleanUpWorkerPods (job : MPIJob) : M (option error) :=
  err ← deleteWorkerPods job;
  match err with
  | Some e => ret (Some e)
  | None =>
      if PodGroupCtrl cl then
        match deletePodGroups cl (getJobKey job) with
        | Some e => ret (Some e)
        | None => ret None
        end
      else ret None
  end.

Definition countReadyWorkerPods (workers : list Pod) : Z :=
  Z.of_nat (length (filter (fun pod => PodReady pod = true) workers)).

(** *** The hostfile *)

Definition hostLine (name : string) (job : MPIJob) : string :=
  "host " +:+ name +:+ "." +:+ Name job +:+ " ++cpus " +:+ Sprint (SlotsPerWorker job) +:+ newline.

Definition echoLine (name : string) (job : MPIJob) : string :=
  "echo " +:+ name +:+ "." +:+ Name job +:+ "." +:+ Namespace job +:+ ".svc" +:+ newline.

Definition concat_strings (l : list string) : string := foldr String.append ""%string l.

Definition newConfigMap (job : MPIJob) (workerReplicas : Z) : ConfigMap :=
  let first :=
    if RunLauncherAsWorker job then hostLine (Name job +:+ launcherSuffix) job else ""%string in
  let lines := (fun i => hostLine (workerName job i) job) <$> seqZ 0 workerReplicas in
  {| cmControlled := true;
     Data := {[ hostfileName := first +:+ concat_strings lines ]} |}.

Definition compare_name (a b : Pod) : Z :=
  match String.compare (podName a) (podName b) with
  | Lt => -1
  | Eq => 0
  | Gt => 1
  end.

Definition updateDiscoverHostsInConfigMap (configMap : ConfigMap) (job : MPIJob)
    (runningPods : list Pod) : ConfigMap :=
  let runningPods := SortFunc compare_name runningPods in
  let first :=
    if RunLauncherAsWorker job then echoLine (Name job +:+ launcherSuffix) job else ""%string in
  let lines := (fun p => echoLine (podName p) job) <$> runningPods in
  {| cmControlled := cmControlled configMap;
     Data := <[discoverHostsScriptName :=
                 "#!/bin/sh" +:+ newline +:+ first +:+ concat_strings lines]> (Data configMap) |}.

Definition getConfigMap (job : MPIJob) : option ConfigMap * option error :=
  match configMapLister cl (getJobKey job) with
  | Found cm => (Some cm, None)
  | NotFound => (None, Some (Errorf "not found"))
  | GetError e => (None, Some e)
  end.

(** Gets the ConfigMap controlled by this MPIJob, or creates one if it
    doesn't exist; updates it when its data changed. *)
Definition getOrCreateConfigMap (job : MPIJob) : M (option ConfigMap * option error) :=
  c ← get;
  let newCM := newConfigMap job (zeroZ (latestReplicas c) (getJobKey job)) in
  match getRunningWorkerPods job with
  | inr err => ret (None, Some err)
  | inl podList =>
      let newCM := updateDiscoverHostsInConfigMap newCM job podList in
      match configMapLister cl (getJobKey job) with
      | NotFound =>
          match createConfigMap cl (getJobKey job) with
          | Some e => ret (None, Some e)
          | None => ret (Some newCM, None)
          end
      | GetError e => ret (None, Some e)
      | Found cm =>
          if negb (cmControlled cm) then ret (None, Some (Errorf MessageResourceExists))
          else if negb (bool_decide (Data cm = Data newCM)) then
            match updateConfigMap cl (getJobKey job) with
            | Some e => ret (None, Some e)
            | None => ret (Some {| cmControlled := cmControlled cm; Data := Data newCM |}, None)
            end
          else ret (Some cm, None)
      end
  end.

(** *** The queue of waiting jobs *)

(** One turn of the loop of [checkJobQueue], over [index]. *)
Definition checkJobQueueBody (fuel : nat) (index : Z) : M (turn Z unit) :=
  c ← get;
  if index =? Z.of_nat (length (queuedJobs c)) then ret (Break index)
  else
    match queuedJobs c !! Z.to_nat index with
    | None => panic "index out of range"
    | Some item =>
        let job := mpiJob item in
        '(replicas, err) ← calculateWorkerReplicas fuel job;
        modify (set_latestReplicas <[getJobKey job := replicas]>);;
        match err with
        | Some _ => ret (Continue (index + 1))
        | None =>
            modify (AddRateLimited (getJobKey job));;
            modify (set_queuedJobs (fun pq =>
              if index <? Z.of_nat (length pq) - 1
              then take (Z.to_nat index) pq ++ drop (Z.to_nat index + 1) pq
              else take (Z.to_nat index) pq));;
            ret (Continue index)
        end
    end.

Definition checkJobQueue (fuel : nat) : M unit :=
  for_loop fuel (checkJobQueueBody fuel) 0;;
  ret tt.

(** *** Completion clean-up and the expansion loop *)

(** [for idx, item := range c.runningJobs] with
    [c.runningJobs = append(c.runningJobs[:idx], c.runningJobs[idx+1:]...)]
    in its body.  The range walks the slice as it was at the start ([todo]
    entries are left, the cursor is [idx]); the [append] shifts the entries
    of the shared backing array [arr] in place and shortens [c.runningJobs]
    to its first [m] entries.  [None] is the panic of
    [c.runningJobs[idx+1:]] when [idx+1] is beyond the shortened slice. *)
Fixpoint rangeRemove (key : string) (todo idx : nat) (arr : list Item) (m : nat)
    : option PriorityQueue :=
  match todo with
  | O => Some (take m arr)
  | S todo' =>
      match arr !! idx with
      | None => Some (take m arr)
      | Some item =>
          if String.eqb (getJobKey (mpiJob item)) key then
            if (idx + 1 <=? m)%nat then
              rangeRemove key todo' (idx + 1)%nat
                (take idx arr ++ take (m - idx - 1) (drop (idx + 1) arr) ++ drop (m - 1) arr)
                (m - 1)%nat
            else None
          else rangeRemove key todo' (idx + 1)%nat arr m
      end
  end.

Definition removeRunning (key : string) (pq : PriorityQueue) : option PriorityQueue :=
  rangeRemove key (length pq) 0 pq (length pq).

(** The variables of the expansion loop. *)
Record expandVars := {
  numFreeWorkers : Z;
  idxRunning : Z;
  idxQueued : Z;
  itRunning : option Item;     (* nil until first set *)
  itQueued : option Item
}.

(** One turn of the loop that keeps expanding jobs in order of priority
    until it runs out of free worker pods. *)
Definition expandBody (v : expandVars) : M (turn expandVars (option error)) :=
  c ← get;
  let lenRunning := Z.of_nat (length (runningJobs c)) in
  let lenQueued := Z.of_nat (length (queuedJobs c)) in
  if (numFreeWorkers v =? 0) || ((idxRunning v =? lenRunning) && (idxQueued v =? lenQueued))
  then ret (Break v)
  else
    let '(itRunning', runPriority) :=
      if idxRunning v <? lenRunning then
        let it := runningJobs c !! Z.to_nat (idxRunning v) in
        (it, from_option (fun it => Priority (mpiJob it)) (-1) it)
      else (itRunning v, -1) in
    let '(itQueued', queuePriority) :=
      if idxQueued v <? lenQueued then
        let it := queuedJobs c !! Z.to_nat (idxQueued v) in
        (it, from_option (fun it => Priority (mpiJob it)) (-1) it)
      else (itQueued v, -1) in
    let '(idxRunning', idxQueued', it) :=
      if runPriority <? queuePriority
      then (idxRunning v, idxQueued v + 1, itQueued')
      else (idxRunning v + 1, idxQueued v, itRunning') in
    match it with
    | None => panic "nil pointer dereference"
    | Some it =>
        match getRunningWorkerPods (mpiJob it) with
        | inr err => ret (Exit (Some err))
        | inl workerPodList =>
            let len := Z.of_nat (length workerPodList) in
            let jobMaxReplicas := MaxReplicas (mpiJob it) in
            let jobMinReplicas := MinReplicas (mpiJob it) in
            let k := getJobKey (mpiJob it) in
            let next n :=
              {| numFreeWorkers := n; idxRunning := idxRunning'; idxQueued := idxQueued';
                 itRunning := itRunning'; itQueued := itQueued' |} in
            if int32 len <? jobMaxReplicas then
              modify (set_latestReplicas (fun m =>
                <[k := int32 (Z.min jobMaxReplicas (zeroZ m k + numFreeWorkers v))]> m));;
              c ← get;
              if zeroZ (latestReplicas c) k <? jobMinReplicas
              then ret (Continue (next (numFreeWorkers v)))
              else
                modify (set_oldExpandReplicas <[k := int32 len]>);;
                modify (AddRateLimited k);;
                ret (Continue (next (numFreeWorkers v - zeroZ (latestReplicas c) k)))
            else ret (Continue (next (numFreeWorkers v)))
        end
    end.

(** The block of the finished branch that [isCleanUpPods] guards: delete
    the worker pods, release the slot of the launcher, expand the others. *)
Definition releaseAndExpand (fuel : nat) (key : string) (job : MPIJob) : M (option error) :=
  if isCleanUpPods (cleanPodPolicy job) then
    err ← cleanUpWorkerPods job;
    match err with
    | Some e => ret (Some e)
    | None =>
        (* for the launcher *)
        modify (set_freeSlots (fun n => n + 1));;
        c ← get;
        r ← for_loop fuel expandBody
              {| numFreeWorkers := freeSlots c; idxRunning := 0; idxQueued := 0;
                 itRunning := None; itQueued := None |};
        match r with
        | inr err => ret err
        | inl v =>
            c ← get;
            if idxQueued v >? Z.of_nat (length (queuedJobs c))
            then panic "slice bounds out of range"
            else
              modify (set_queuedJobs (drop (Z.to_nat (idxQueued v))));;
              ret (updateStatusHandler cl key)
        end
    end
  else ret None.

(** The branch of [syncHandler] for a finished job with its CompletionTime
    set. *)
Definition syncFinished (fuel : nat) (key : string) (job : MPIJob) : M (option error) :=
  c ← get;
  match jobStatus c !! key with
  | None => ret None
  | Some _ =>
      modify (set_deferredAction (delete key));;
      modify (set_latestReplicas (delete key));;
      modify (set_jobStatus (delete key));;
      modify (set_configMaps (delete key));;
      match removeRunning (getJobKey job) (runningJobs c) with
      | None => panic "slice bounds out of range"
      | Some pq =>
          modify (set_runningJobs (fun _ => pq));;
          releaseAndExpand fuel key job
      end
  end.

(** *** The reconcile *)

(** The part of [syncHandler] run for a job that is not suspended while its
    launcher has not finished: [inl worker] to go on with the worker pods,
    [inr err] when the reconcile returns [err] from here. *)
Definition syncWorkers (fuel : nat) (key : string) (job : MPIJob)
    : M (list Pod + option error) :=
  let k := getJobKey job in
  match (if PodGroupCtrl cl then
           let '(podGroup, err) := getOrCreatePodGroups cl k in
           if negb podGroup || bool_decide (is_Some err) then Some err else None
         else None) with
  | Some err => ret (inr err)
  | None =>
  c ← get;
  let lastReplicas := default (-1) (latestReplicas c !! k) in
  match (match jobStatus c !! k with
         | Some status =>
             if String.eqb status running then
               match podListError cl k with
               | Some err => inr err
               | None => inl (Z.of_nat (length (podLister cl k)) <? lastReplicas)
               end
             else inl false
         | None => inl false
         end) with
  | inr err => ret (inr (Some err))
  | inl isExpand =>
  r ← match jobStatus c !! k with
      | None =>
          '(replicas, err) ← calculateWorkerReplicas fuel job;
          modify (set_latestReplicas <[k := replicas]>);;
          match err with
          | Some e =>
              if bool_decide (e = jobQueuedError) then
                enqueueJobInternal job;;
                ret (Some None)
              else ret (Some (Some (Errorf "Error")))
          | None =>
              modify (set_jobStatus <[k := created]>);;
              modify (set_freeSlots (fun n => n - 1));;   (* this one is for the launcher *)
              ret None
          end
      | Some status =>
          if String.eqb status queued && (zeroZ (latestReplicas c) k >? 0) then
            modify (set_jobStatus <[k := created]>);;
            modify (set_freeSlots (fun n => n - 1));;     (* this one is for the launcher *)
            ret None
          else ret None
      end;
  match r with
  | Some err => ret (inr err)
  | None =>
  '(worker, err) ← getOrCreateWorker job;
  match err with
  | Some e =>
      if bool_decide (e = jobQueuedError) then
        enqueueJobInternal job;;
        ret (inr None)
      else ret (inr (Some e))
  | None =>
  '(config, err) ← getOrCreateConfigMap job;
  match config, err with
  | None, _ | _, Some _ => ret (inr (Some (Errorf "getting or creating ConfigMap")))
  | Some config, None =>
  modify (set_configMaps <[k := zeroS (Data config) hostfileName]>);;
  (if isExpand then modify (set_deferredAction <[key := expand]>) else ret tt);;
  let '(config, err) := getConfigMap job in
  let ready := countReadyWorkerPods worker in
  c ← get;
  match config, err with
  | Some config, None =>
      if (ready =? Z.of_nat (length worker))
         && String.eqb (zeroS (Data config) hostfileName) (zeroS (configMaps c) k)
      then
        let action := default noop (deferredAction c !! key) in
        if String.eqb action expand then
          (* wait for workers to be ready and send expand signal *)
          match sendRescaleSignal job (zeroZ (oldExpandReplicas c) k)
                  (int32 (Z.of_nat (length worker))) with
          | Some e => ret (inr (Some e))
          | None =>
              modify (set_deferredAction <[k := noop]>);;
              ret (inl worker)
          end
        else ret (inl worker)
      else ret (inl worker)
  | _, _ => ret (inl worker)
  end
  end
  end
  end
  end
  end.

(** The launcher that [newLauncherJob] describes, as the API hands it back. *)
Definition newLauncherJob (job : MPIJob) : Job :=
  {| jobControlled := true; isJobFinished := false; jobSuspend := Suspend job |}.

(** The part of [syncHandler] run while the launcher has not finished:
    [inl (launcher, worker)] to go on, [inr err] when the reconcile returns
    [err] from here. *)
Definition syncNotDone (fuel : nat) (key : string) (job : MPIJob) (launcher : option Job)
    : M (option Job * list Pod + option error) :=
  let k := getJobKey job in
  match getOrCreateService cl k with
  | Some _ => ret (inr (Some (Errorf "getting or creating Service to front workers")))
  | None =>
  match getOrCreateSSHAuthSecret cl k with
  | Some _ => ret (inr (Some (Errorf "creating SSH auth secret")))
  | None =>
  r ← (if negb (Suspend job) then syncWorkers fuel key job else ret (inl []));
  match r with
  | inr err => ret (inr err)
  | inl worker =>
      let '(config, err) := getConfigMap job in
      match launcher with
      | None =>
          c ← get;
          if (match config, err with
              | Some config, None =>
                  String.eqb (zeroS (Data config) hostfileName) (zeroS (configMaps c) k)
              | _, _ => false
              end)
             && String.eqb (zeroS (jobStatus c) k) created
             && (countReadyWorkerPods worker =? Z.of_nat (length worker))
          then
            match createLauncher cl k with
            | Some _ => ret (inr (Some (Errorf "creating launcher Pod")))
            | None =>
                modify (set_jobStatus <[k := running]>);;
                modify (set_runningJobs (fun pq =>
                  Push pq {| mpiJob := job; priority := Priority job |}));;
                ret (inl (Some (newLauncherJob job), worker))
            end
          else ret (inl (None, worker))
      | Some l =>
          match jobPods cl k with
          | inr err => ret (inr (Some err))
          | inl launcherPods =>
              match launcherPods with
              | pod :: _ =>
                  if isPodRunning pod then
                    modify (set_jobStatus <[k := running]>);;
                    checkJobQueue fuel;;
                    ret (inl (launcher, worker))
                  else ret (inl (launcher, worker))
              | [] => ret (inl (launcher, worker))
              end
          end
      end
  end
  end
  end.

(** [syncHandler] compares the actual state with the desired, and attempts
    to converge the two. *)
Definition syncHandler (fuel : nat) (key : string) : M (option error) :=
  match mpiJobLister cl key with
  | NotFound => ret None
  | GetError _ => ret (Some (Errorf "obtaining job"))
  | Found sharedJob =>
      let job := sharedJob in
      (* for mpi job that is terminating, just return *)
      if DeletionTimestamp job then ret None
      else if negb (ValidateMPIJob cl job) then ret None
      else if isFinished job && CompletionTime job then syncFinished fuel key job
      else
        match getLauncherJob job with
        | (_, Some err) => ret (Some err)
        | (launcher, None) =>
            let done := from_option isJobFinished false launcher in
            r ← (if negb done then syncNotDone fuel key job launcher
                 else ret (inl (launcher, [])));
            match r with
            | inr err => ret err
            | inl (launcher, worker) =>
                match (match launcher with
                       | Some l =>
                           if negb (eqb (Suspend job) (jobSuspend l))
                           then updateLauncher cl (getJobKey job) else None
                       | None => None
                       end) with
                | Some e => ret (Some e)
                | None =>
                    err ← (if Suspend job then cleanUpWorkerPods job else ret None);
                    match err with
                    | Some e => ret (Some e)
                    | None => ret (updateMPIJobStatus cl (getJobKey job))
                    end
                end
            end
        end
  end.

End Controller.

(** ** Helpers of the controller outside the scheduler *)

(** [Item.DeepCopy] *)
Definition Item_DeepCopy (it : Item) : Item :=
  {| mpiJob := mpiJob it; priority := priority it |}.

(** The loop of [PriorityQueue.DeepCopy]: [*cpy[idx] = item.DeepCopy()]
    stores through the pointer held at [cpy[idx]]; [None] is the panic of a
    nil pointer (or of an index out of range). *)
Fixpoint DeepCopy_loop (idx : nat) (items : list Item) (cpy : list (option Item))
    : option (list (option Item)) :=
  match items with
  | [] => Some cpy
  | item :: items' =>
      match cpy !! idx with
      | Some (Some _) =>
          DeepCopy_loop (S idx) items' (<[idx := Some (Item_DeepCopy item)]> cpy)
      | Some None => None
      | None => None
      end
  end.

(** [PriorityQueue.DeepCopy]: [make(PriorityQueue, len(pq))] is a slice of
    [len(pq)] nil pointers. *)
Definition DeepCopy (pq : PriorityQueue) : option (list (option Item)) :=
  DeepCopy_loop 0 pq (replicate (length pq) None).

(** The order of Go strings ([<] compares them byte by byte), as the
    three-way result that the sorts use. *)
Definition compare_string (a b : string) : Z :=
  match String.compare a b with
  | Lt => -1
  | Eq => 0
  | Gt => 1
  end.

(** [keysFromData]: the keys of the map, sorted by [sort.Strings].  Go
    leaves the order in which [for k := range data] yields the keys open;
    the model takes the one of [map_to_list]. *)
Definition keysFromData {V} (data : gmap string V) : list string :=
  SortFunc compare_string (map_to_list data).*1.

(** [eventMessageLimit] is the maximum size of an Event's message. *)
Definition eventMessageLimit : nat := 1024.

(** [truncateMessage] truncates a message if it hits the limit. *)
Definition truncateMessage (message : string) : string :=
  if (String.length message <=? eventMessageLimit)%nat then message
  else
    let suffix := "..."%string in
    substring 0 (eventMessageLimit - String.length suffix) message +:+ suffix.

(** ** Concrete jobs and clusters for the examples *)

Definition job (name : string) (prio minR maxR : Z) (policy : CleanPodPolicy) (finished : bool)
    : MPIJob :=
  {| Namespace := "default"; Name := name; Priority := prio;
     MinReplicas := minR; MaxReplicas := maxR;
     SlotsPerWorker := 1; RunLauncherAsWorker := false;
     cleanPodPolicy := policy; Suspend := false; DeletionTimestamp := false;
     isFinished := finished; CompletionTime := finished |}.

Definition item (j : MPIJob) : Item := {| mpiJob := j; priority := Priority j |}.

(** A running, ready worker pod of the job called [name]. *)
Definition workerPod (name : string) (index : Z) : Pod :=
  {| podName := name +:+ "-worker-" +:+ Sprint index;
     ReplicaIndexLabel := Some (Sprint index);
     Phase := PodRunning; PodReady := true; podControlled := true;
     PodIP := "10.0.1." +:+ Sprint index |}.

Definition launcherPod (name : string) : Pod :=
  {| podName := name +:+ "-launcher-0"; ReplicaIndexLabel := None;
     Phase := PodRunning; PodReady := true; podControlled := true;
     PodIP := "10.0.0.9" |}.

Definition launcherJob : Job :=
  {| jobControlled := true; isJobFinished := false; jobSuspend := false |}.

(** A launcher that answers ([true]) or whose connection fails ([false]). *)
Definition launcherServer (up : bool) : RescaleClient.CcsServer :=
  {| RescaleClient.CcsConnect := up; RescaleClient.CcsSendRequest := up;
     RescaleClient.CcsRecvResponse := up |}.

(** A cluster given by its caches: the MPIJobs, the worker pods and the
    launcher of each job, its config map, the names of the pods whose
    creation the API server refuses, and whether the launchers answer the
    rescale client.  Every other call succeeds; no gang scheduler. *)
Definition cluster (jobs : list MPIJob) (pods : string -> list Pod)
    (launchers : list string) (configs : string -> GetResult ConfigMap)
    (refused : list string) (up : bool) : Cluster :=
  {| mpiJobLister := fun key =>
       match List.find (fun j => String.eqb (getJobKey j) key) jobs with
       | Some j => Found j
       | None => NotFound
       end;
     ValidateMPIJob := fun _ => true;
     jobLister := fun key =>
       if existsb (String.eqb key) launchers then Found launcherJob else NotFound;
     jobPods := fun key =>
       if existsb (String.eqb key) launchers then inl [launcherPod key] else inl [];
     podLister := pods;
     podListError := fun _ => None;
     configMapLister := configs;
     createPod := fun name =>
       if existsb (String.eqb name) refused then Some (Errorf "pods is forbidden") else None;
     deletePod := fun _ => Deleted;
     createConfigMap := fun _ => None;
     updateConfigMap := fun _ => None;
     createLauncher := fun _ => None;
     updateLauncher := fun _ => None;
     getOrCreateService := fun _ => None;
     getOrCreateSSHAuthSecret := fun _ => None;
     PodGroupCtrl := false;
     getOrCreatePodGroups := fun _ => (true, None);
     deletePodGroups := fun _ => None;
     updateMPIJobStatus := fun _ => None;
     updateStatusHandler := fun _ => None;
     rescaleClientInstalled := true;
     ccsServer := fun _ => launcherServer up |}.

Definition noPods : string -> list Pod := fun _ => [].
Definition noConfigs : string -> GetResult ConfigMap := fun _ => NotFound.

(** The worker pods [0 .. n-1] of each job listed with its number [n] of
    pods, none for the others. *)
Definition podsOf (counts : list (string * Z)) : string -> list Pod :=
  fun key =>
    match List.find (fun '(name, _) => String.eqb key ("default/" +:+ name)) counts with
    | Some (name, n) => workerPod name <$> seqZ 0 n
    | None => []
    end.

(** *** One job fills the pool, loses a pod, and a second job arrives *)

Definition jobLow : MPIJob := job "low" 0 1 9 CleanPodPolicyRunning false.
Definition jobHigh : MPIJob := job "high" 5 1 2 CleanPodPolicyRunning false.

(** The config map of [low] as its first reconcile creates it. *)
Definition configOfLow : string -> GetResult ConfigMap :=
  fun key =>
    if String.eqb key "default/low"
    then Found (updateDiscoverHostsInConfigMap (newConfigMap jobLow 9) jobLow [])
    else NotFound.

(** [low] is seen for the first time: nothing of it exists yet. *)
Definition arrivalCluster : Cluster :=
  cluster [jobLow] noPods [] noConfigs [] true.

(** The nine workers of [low] are running and ready, no launcher yet. *)
Definition readyCluster : Cluster :=
  cluster [jobLow] (podsOf [("low"%string, 9)]) [] configOfLow [] true.

(** [low] runs with its launcher and nine workers when [high] is submitted;
    the launcher answers the rescale client or not. *)
Definition preemptCluster (up : bool) : Cluster :=
  cluster [jobLow; jobHigh] (podsOf [("low"%string, 9)]) ["default/low"%string]
    configOfLow [] up.

(** The same after the cluster lost the last worker pod of [low]. *)
Definition lostPodCluster : Cluster :=
  cluster [jobLow; jobHigh] (podsOf [("low"%string, 8)]) ["default/low"%string]
    configOfLow [] true.

(** The controller once [low] runs: nine workers and the launcher hold the
    ten slots. *)
Definition preemptState : MPIJobController :=
  {| latestReplicas := {[ "default/low"%string := 9 ]};
     configMaps := {[ "default/low"%string := zeroS (Data (newConfigMap jobLow 9)) hostfileName ]};
     jobStatus := {[ "default/low"%string := running ]};
     deferredAction := ∅;
     oldExpandReplicas := ∅;
     runningJobs := [item jobLow];
     queuedJobs := [];
     freeSlots := 0;
     queue := [] |}.

(** The controller after the reconcile of [low] that found the pod missing
    and no free slot to replace it: [low] is marked queued and sits in both
    queues. *)
Definition stuckState : MPIJobController :=
  {| latestReplicas := {[ "default/low"%string := 9 ]};
     configMaps := {[ "default/low"%string := zeroS (Data (newConfigMap jobLow 9)) hostfileName ]};
     jobStatus := {[ "default/low"%string := queued ]};
     deferredAction := ∅;
     oldExpandReplicas := ∅;
     runningJobs := [item jobLow];
     queuedJobs := [item jobLow];
     freeSlots := 0;
     queue := [] |}.

(** *** A completion: [a] has finished, [b] and [c] run below their maximum *)

Definition jobA (policy : CleanPodPolicy) : MPIJob := job "a" 0 1 3 policy true.
Definition jobB : MPIJob := job "b" 1 1 4 CleanPodPolicyRunning false.
Definition jobC : MPIJob := job "c" 2 1 8 CleanPodPolicyRunning false.

(** Three workers for [a], three for [b], one for [c], and their launchers:
    the ten slots of the pool. *)
Definition completionCluster (policy : CleanPodPolicy) : Cluster :=
  cluster [jobA policy; jobB; jobC]
    (podsOf [("a"%string, 3); ("b"%string, 3); ("c"%string, 1)])
    ["default/a"; "default/b"; "default/c"]%string noConfigs [] true.

Definition completionState (policy : CleanPodPolicy) : MPIJobController :=
  {| latestReplicas :=
       {[ "default/a"%string := 3; "default/b"%string := 3; "default/c"%string := 1 ]};
     configMaps := ∅;
     jobStatus :=
       {[ "default/a"%string := running; "default/b"%string := running;
          "default/c"%string := running ]};
     deferredAction := ∅;
     oldExpandReplicas := ∅;
     runningJobs := [item (jobA policy); item jobB; item jobC];
     queuedJobs := [];
     freeSlots := 0;
     queue := [] |}.


(** The first reconcile of [a] after it finished, under the policy Running. *)
Definition completionRun : outcome (option error) * MPIJobController :=
  syncHandler (completionCluster CleanPodPolicyRunning) 5 "default/a"
    (completionState CleanPodPolicyRunning).

(** The controller after the clean-up of [a], when the expansion loop
    starts with its four freed slots. *)
Definition expansionState : MPIJobController :=
  {| latestReplicas := {[ "default/b"%string := 3; "default/c"%string := 1 ]};
     configMaps := ∅;
     jobStatus := {[ "default/b"%string := running; "default/c"%string := running ]};
     deferredAction := ∅;
     oldExpandReplicas := ∅;
     runningJobs := [item jobB; item jobC];
     queuedJobs := [];
     freeSlots := 4;
     queue := [] |}.

Definition expansionStart : expandVars :=
  {| numFreeWorkers := 4; idxRunning := 0; idxQueued := 0;
     itRunning := None; itQueued := None |}.

(** ** Statements about the priority queues *)

(** Entries in ascending order of [priority], as [Push] leaves them. *)
Definition ascending (pq : PriorityQueue) : Prop :=
  StronglySorted (fun a b => priority a <= priority b) pq.

(** "[Pop] returns the entry with the lowest priority value in the queue". *)
Definition pops_lowest (pq : PriorityQueue) : Prop :=
  forall it rest, Pop pq = Some (it, rest) ->
    forall x, x ∈ pq -> priority it <= priority x.

(** ** Statements about the rescale message *)

(** The bitmap as the wire protocol words it: every rank kept on an
    expansion, the first [newProcs] ranks kept and the rest dropped on a
    shrink. *)
Definition keep_bitmap (oldProcs newProcs : Z) : list Z :=
  if newProcs >? oldProcs then replicate (Z.to_nat oldProcs) 1
  else replicate (Z.to_nat newProcs) 1
         ++ replicate (Z.to_nat oldProcs - Z.to_nat newProcs) 0.

(** A 32-bit integer as four bytes, lowest first (two's complement). *)
Definition little_endian_4 (n : Z) : list Z :=
  [n `mod` 256; (n `div` 256) `mod` 256; (n `div` 65536) `mod` 256;
   (n `div` 16777216) `mod` 256].

(** "A rescale from [p] to [p] returns ok to the controller". *)
Definition equal_rescale_ok (server : RescaleClient.CcsServer) (ipAddr : string)
    (port p : Z) : Prop :=
  signalRescale true server ipAddr port p p = None.

(** ** Statements about admission *)

(** "A running job whose priority value is at most the new job's is never
    shrunk by the admission of the new job". *)
Definition never_shrinks_le (cl : Cluster) (c : MPIJobController) (J : MPIJob) : Prop :=
  forall fuel r c', calculateWorkerReplicas cl fuel J c = (Return r, c') ->
    forall R, R ∈ runningJobs c -> Priority (mpiJob R) <= Priority J ->
      latestReplicas c' !! getJobKey (mpiJob R) = latestReplicas c !! getJobKey (mpiJob R).

(** The entries of the queue from position [i] on all have a priority value
    that is at most the new job's. *)
Definition tail_le (J : MPIJob) (pq : PriorityQueue) (i : nat) : Prop :=
  forall j R, (i <= j)%nat -> pq !! j = Some R -> Priority (mpiJob R) <= Priority J.

(** ** Statements about the completion clean-up *)

(** A controller method leaves a part of the controller as it was. *)
Definition keeps {X A} (proj : MPIJobController -> X) (m : M A) : Prop :=
  forall c, proj (m c).2 = proj c.

(** The queue entries of the job with the given key, and the others. *)
Definition entriesOf (key : string) (pq : PriorityQueue) : PriorityQueue :=
  filter (fun it => getJobKey (mpiJob it) = key) pq.
Definition entriesNotOf (key : string) (pq : PriorityQueue) : PriorityQueue :=
  filter (fun it => getJobKey (mpiJob it) <> key) pq.

(** Whether [removeWorker] deletes the worker pod of this index and releases
    its slot: the pod is in the cache, is controlled by the job, is not one
    that the policy Running keeps, and the API does not refuse to delete
    it. *)
Definition releasesSlot (cl : Cluster) (job : MPIJob) (index : Z) : bool :=
  match getPod cl job (workerName job index) with
  | None => false
  | Some pod =>
      podControlled pod
      && negb ((match cleanPodPolicy job with CleanPodPolicyRunning => true | _ => false end)
               && negb (isPodRunning pod) && negb (isPodPending pod))
      && match deletePod cl (workerName job index) with
         | DeleteError _ => false
         | _ => true
         end
  end.

(** The number of slots that [deleteWorkerPods] releases. *)
Definition releasedWorkers (cl : Cluster) (job : MPIJob) : Z :=
  Z.of_nat (length (filter (fun i => releasesSlot cl job i = true) (seqZ 0 (MaxReplicas job)))).

(** "The first reconcile of a finished job releases the slot of its
    launcher": [freeSlots] grows by one at least. *)
Definition releases_launcher_slot (cl : Cluster) (fuel : nat) (key : string)
    (c : MPIJobController) : Prop :=
  freeSlots (syncHandler cl fuel key c).2 >= freeSlots c + 1.

(** No entry of the queue, and neither of the two entries that the
    expansion loop carries along, belongs to the job with the given key. *)
Definition foreignTo (key : string) (v : expandVars) (c : MPIJobController) : Prop :=
  (forall it, itRunning v = Some it -> getJobKey (mpiJob it) <> key) /\
  (forall it, itQueued v = Some it -> getJobKey (mpiJob it) <> key) /\
  entriesOf key (runningJobs c) = [] /\
  entriesOf key (queuedJobs c) = [].

(** Whether [cleanUpWorkerPods] fails after the pods are deleted: only the
    deletion of the pod group can. *)
Definition cleanUpError (cl : Cluster) (job : MPIJob) : option error :=
  if PodGroupCtrl cl then deletePodGroups cl (getJobKey job) else None.

(** The slots that a job holds in the ledger: one for each of its worker
    pods and one for its launcher. *)
Definition heldSlots (cl : Cluster) (key : string) : Z :=
  Z.of_nat (length (podLister cl key)) + 1.

(** "Reconciling the finished job [key] twice frees its slots exactly
    once": after the two passes [freeSlots] has grown by the slots the job
    held, and the second pass has changed nothing. *)
Definition frees_slots_once (cl : Cluster) (fuel : nat) (key : string)
    (c : MPIJobController) : Prop :=
  let c1 := (syncHandler cl fuel key c).2 in
  let c2 := (syncHandler cl fuel key c1).2 in
  c2 = c1 /\ freeSlots c2 = freeSlots c + heldSlots cl key.

(** ** Reachable states *)

(** The states of the controller that reconciles lead to from the initial
    one, whatever the cluster shows at each of them. *)
Inductive reachable : MPIJobController -> Prop :=
| reachable_init : reachable NewMPIJobController
| reachable_sync (cl : Cluster) (fuel : nat) (key : string) (c : MPIJobController)
    (err : option error) (c' : MPIJobController) :
    reachable c ->
    syncHandler cl fuel key c = (Return err, c') ->
    reachable c'.

(** ** Statements about invariants of the controller *)

(** A controller method keeps a property of the controller. *)
Definition preserves {A} (P : MPIJobController -> Prop) (m : M A) : Prop :=
  forall c, P c -> P (m c).2.

(** Every status held in [jobStatus] is one of created, queued, running. *)
Definition statusKnown (c : MPIJobController) : Prop :=
  forall k s, jobStatus c !! k = Some s -> s = created \/ s = queued \/ s = running.

(** The keys of the jobs of a queue, in the order of the queue. *)
Definition keysOf (pq : list Item) : list string :=
  (fun it => getJobKey (mpiJob it)) <$> pq.

(** Both queues are in ascending order of priority. *)
Definition queuesAscending (c : MPIJobController) : Prop :=
  ascending (runningJobs c) /\ ascending (queuedJobs c).

(** No job has two entries in [queuedJobs]. *)
Definition queuedOnce (c : MPIJobController) : Prop :=
  NoDup (keysOf (queuedJobs c)).

(** The order of Go strings. *)
Definition string_le (a b : string) : Prop := compare_string a b <= 0.

(** No job of either queue has a negative priority. *)
Definition prioritiesNonNegative (c : MPIJobController) : Prop :=
  Forall (fun it => 0 <= Priority (mpiJob it)) (runningJobs c) /\
  Forall (fun it => 0 <= Priority (mpiJob it)) (queuedJobs c).

(** The variables with which the finished branch starts its expansion loop. *)
Definition expandStart (n : Z) : expandVars :=
  {| numFreeWorkers := n; idxRunning := 0; idxQueued := 0;
     itRunning := None; itQueued := None |}.

(** A property of the queue of waiting jobs, as a property of the controller. *)
Definition onQueued (Q : list Item -> Prop) (c : MPIJobController) : Prop :=
  Q (queuedJobs c).

(** The running jobs are in ascending order of priority. *)
Definition runningAscending (c : MPIJobController) : Prop := ascending (runningJobs c).

(** The index of a scan of [calculateWorkerReplicas] is below the length of
    [runningJobs]. *)
Definition inRunning (s : Z * Z) (c : MPIJobController) : Prop :=
  s.2 < Z.of_nat (length (runningJobs c)).

(** The index of [checkJobQueue] is inside [queuedJobs], or just behind it. *)
Definition inQueue (index : Z) (c : MPIJobController) : Prop :=
  0 <= index <= Z.of_nat (length (queuedJobs c)).

(** The two indices of the expansion loop are inside their queues, or just
    behind them. *)
Definition inBounds (v : expandVars) (c : MPIJobController) : Prop :=
  0 <= idxRunning v <= Z.of_nat (length (runningJobs c)) /\
  0 <= idxQueued v <= Z.of_nat (length (queuedJobs c)).

(** The entries that the expansion loop has not looked at yet. *)
Definition turnsLeft (v : expandVars) (c : MPIJobController) : Z :=
  (Z.of_nat (length (runningJobs c)) - idxRunning v)
  + (Z.of_nat (length (queuedJobs c)) - idxQueued v).

(** * Properties *)

(** ** Decimal text *)

Lemma scan_digits_string_of_uint (d : Decimal.uint) :
  scan_digits (NilEmpty.string_of_uint d) = d.
Proof. induction d; simpl; rewrite ?IHd; reflexivity. Qed.

Lemma string_of_uint_head (d : Decimal.uint) :
  d <> Decimal.Nil ->
  exists c s, NilEmpty.string_of_uint d = String c s /\ isspace c = false /\
    Ascii.eqb c "-" = false /\ Ascii.eqb c "+" = false.
Proof. destruct d; intros H; try congruence; simpl; eauto 10. Qed.

Lemma sscanf_d_value (neg : bool) (d : Decimal.uint) (z : Z) :
  d <> Decimal.Nil ->
  Z.of_int (if neg then Decimal.Neg d else Decimal.Pos d) = z ->
  in_int32 z ->
  (if no_digit d then None
   else
     let v := Z.of_int (if neg then Decimal.Neg d else Decimal.Pos d) in
     if bool_decide (INT_MIN <= v <= INT_MAX) then Some v else None) = Some z.
Proof.
  intros Hd Hv Hz.
  replace (no_digit d) with false by (destruct d; congruence || reflexivity).
  cbv zeta. rewrite Hv. rewrite bool_decide_eq_true_2; [reflexivity | exact Hz].
Qed.

(** What [fmt.Sprint] prints of an [int32], [%d] reads back. *)
Lemma sscanf_d_Sprint (z : Z) : in_int32 z -> sscanf_d (Sprint z) = Some z.
Proof.
  intros Hz. unfold Sprint.
  destruct z as [|p|p].
  - reflexivity.
  - pose proof (DecimalPos.Unsigned.to_uint_nonnil p) as Hn.
    change (Z.to_int (Z.pos p)) with (Decimal.Pos (Pos.to_uint p)).
    assert (Hs : NilZero.string_of_int (Decimal.Pos (Pos.to_uint p))
                 = NilEmpty.string_of_uint (Pos.to_uint p)).
    { unfold NilZero.string_of_int, NilZero.string_of_uint.
      destruct (Pos.to_uint p); congruence. }
    rewrite Hs. unfold sscanf_d.
    destruct (string_of_uint_head _ Hn) as (c & s & Hc & Hsp & Hm & Hp).
    rewrite Hc. cbn [skip_space]. rewrite Hsp, Hm, Hp, <- Hc.
    rewrite scan_digits_string_of_uint.
    apply (sscanf_d_value false); auto.
    change (Z.of_int (Z.to_int (Z.pos p)) = Z.pos p). apply DecimalZ.of_to.
  - pose proof (DecimalPos.Unsigned.to_uint_nonnil p) as Hn.
    change (Z.to_int (Z.neg p)) with (Decimal.Neg (Pos.to_uint p)).
    assert (Hs : NilZero.string_of_int (Decimal.Neg (Pos.to_uint p))
                 = String "-" (NilEmpty.string_of_uint (Pos.to_uint p))).
    { unfold NilZero.string_of_int, NilZero.string_of_uint.
      destruct (Pos.to_uint p); congruence. }
    rewrite Hs. unfold sscanf_d. cbn [skip_space].
    change (isspace "-") with false. cbv iota.
    change (Ascii.eqb "-" "-") with true. cbv iota.
    rewrite scan_digits_string_of_uint.
    apply (sscanf_d_value true); auto.
    change (Z.of_int (Z.to_int (Z.neg p)) = Z.neg p). apply DecimalZ.of_to.
Qed.

(** ** Priority queues *)

Lemma compare_le (a b : Item) : (compare a b <=? 0) = true <-> priority a <= priority b.
Proof.
  unfold compare. destruct (Z.compare_spec (priority a) (priority b));
    rewrite Z.leb_le; lia.
Qed.

Lemma sort_insert_Permutation {A} (cmp : A -> A -> Z) (x : A) (l : list A) :
  sort_insert cmp x l ≡ₚ x :: l.
Proof.
  induction l as [|y l IH]; simpl; [reflexivity|].
  destruct (cmp y x <=? 0); [|reflexivity].
  rewrite IH. apply Permutation_swap.
Qed.

Lemma SortFunc_Permutation {A} (cmp : A -> A -> Z) (l : list A) : SortFunc cmp l ≡ₚ l.
Proof.
  unfold SortFunc.
  assert (H : forall acc, foldl (fun acc x => sort_insert cmp x acc) acc l ≡ₚ acc ++ l).
  { induction l as [|x l IH]; intros acc; simpl.
    - by rewrite app_nil_r.
    - rewrite IH, sort_insert_Permutation. simpl. apply Permutation_middle. }
  apply H.
Qed.

Lemma sort_insert_ascending (x : Item) (pq : PriorityQueue) :
  ascending pq -> ascending (sort_insert compare x pq).
Proof.
  unfold ascending. induction 1 as [|y l Hl IH Hy]; simpl.
  - repeat constructor.
  - destruct (compare y x <=? 0) eqn:E.
    + constructor; [exact IH|].
      rewrite sort_insert_Permutation. constructor; [by apply compare_le | exact Hy].
    + assert (Hxy : priority x <= priority y).
      { destruct (Z.le_gt_cases (priority y) (priority x)) as [Hle|Hgt]; [|lia].
        apply compare_le in Hle. congruence. }
      constructor; [by constructor|].
      constructor; [exact Hxy|].
      eapply Forall_impl; [exact Hy|]. simpl. intros; lia.
Qed.

Lemma SortFunc_ascending (pq : PriorityQueue) : ascending (SortFunc compare pq).
Proof.
  unfold SortFunc.
  assert (H : forall acc, ascending acc ->
            ascending (foldl (fun acc x => sort_insert compare x acc) acc pq)).
  { induction pq as [|x l IH]; intros acc Hacc; simpl; [exact Hacc|].
    apply IH, sort_insert_ascending, Hacc. }
  apply H. constructor.
Qed.

(** [Push] leaves the queue in ascending order, with the new entry in it. *)
Lemma Push_ascending (pq : PriorityQueue) (x : Item) : ascending (Push pq x).
Proof. apply SortFunc_ascending. Qed.

Lemma Push_Permutation (pq : PriorityQueue) (x : Item) : Push pq x ≡ₚ x :: pq.
Proof.
  unfold Push. rewrite SortFunc_Permutation. symmetry. apply Permutation_cons_append.
Qed.

Lemma ascending_snoc (pq : PriorityQueue) (x : Item) :
  ascending (pq ++ [x]) -> Forall (fun y => priority y <= priority x) (pq ++ [x]).
Proof.
  unfold ascending. induction pq as [|y l IH]; simpl; intros H.
  - constructor; [lia | constructor].
  - inversion H as [|? ? Hl Hy]; subst. constructor; [|by apply IH].
    rewrite Forall_app in Hy. destruct Hy as [_ Hx]. by inversion Hx.
Qed.

(** C3, as the code has it: on a queue in ascending order that is not
    empty, [Pop] returns the last entry, whose priority value is the
    highest of the queue (not the lowest), and leaves the entries before
    it. *)
Theorem Pop_returns_highest (pq : PriorityQueue) :
  ascending pq -> pq <> [] ->
  exists it rest,
    Pop pq = Some (it, rest) /\ pq = rest ++ [it] /\
    forall x, x ∈ pq -> priority x <= priority it.
Proof.
  intros Hasc Hne.
  destruct (exists_last Hne) as (rest & it & ->).
  exists it, rest. unfold Pop.
  rewrite last_snoc, length_app. simpl.
  replace (length rest + 1 - 1)%nat with (length rest) by lia.
  rewrite take_app_length. split; [reflexivity|]. split; [reflexivity|].
  intros x Hx. pose proof (ascending_snoc _ _ Hasc) as Hall.
  rewrite Forall_forall in Hall. by apply Hall.
Qed.

Lemma Pop_returns_highest_witness :
  exists it rest,
    Pop (Push (Push [] (item (job "b" 2 1 2 CleanPodPolicyRunning false)))
              (item (job "a" 1 1 2 CleanPodPolicyRunning false)))
      = Some (it, rest) /\
    Push (Push [] (item (job "b" 2 1 2 CleanPodPolicyRunning false)))
         (item (job "a" 1 1 2 CleanPodPolicyRunning false)) = rest ++ [it] /\
    forall x, x ∈ Push (Push [] (item (job "b" 2 1 2 CleanPodPolicyRunning false)))
                       (item (job "a" 1 1 2 CleanPodPolicyRunning false)) ->
      priority x <= priority it.
Proof.
  apply (Pop_returns_highest
           (Push (Push [] (item (job "b" 2 1 2 CleanPodPolicyRunning false)))
                 (item (job "a" 1 1 2 CleanPodPolicyRunning false)))).
  - apply Push_ascending.
  - vm_compute. discriminate.
Defined.

(** C3, as stated, fails: the queue holds priorities 1 and 2 and [Pop]
    returns the entry of priority 2. *)
Lemma Pop_not_lowest :
  ~ pops_lowest (Push (Push [] (item (job "b" 2 1 2 CleanPodPolicyRunning false)))
                      (item (job "a" 1 1 2 CleanPodPolicyRunning false))).
Proof.
  intros H.
  specialize (H (item (job "b" 2 1 2 CleanPodPolicyRunning false))
                [item (job "a" 1 1 2 CleanPodPolicyRunning false)] eq_refl
                (item (job "a" 1 1 2 CleanPodPolicyRunning false))).
  assert (Hin : item (job "a" 1 1 2 CleanPodPolicyRunning false)
                ∈ Push (Push [] (item (job "b" 2 1 2 CleanPodPolicyRunning false)))
                       (item (job "a" 1 1 2 CleanPodPolicyRunning false))).
  { vm_compute. apply list_elem_of_here. }
  specialize (H Hin). vm_compute in H. apply H. reflexivity.
Qed.

(** ** The rescale client *)

Lemma fmap_constant {A B} (f : A -> B) (y : B) (l : list A) :
  (forall x, x ∈ l -> f x = y) -> f <$> l = replicate (length l) y.
Proof.
  induction l as [|x l IH]; intros H; simpl; [reflexivity|].
  rewrite (H x) by apply list_elem_of_here.
  f_equal. apply IH. intros z Hz. apply H. by apply list_elem_of_further.
Qed.

Lemma fill_bitmap_EXPAND (OLDNPROCS NEWNPROCS : Z) :
  RescaleClient.fill_bitmap RescaleClient.EXPAND OLDNPROCS NEWNPROCS
  = replicate (Z.to_nat OLDNPROCS) 1.
Proof.
  unfold RescaleClient.fill_bitmap.
  rewrite (fmap_constant _ 1) by reflexivity. by rewrite length_seqZ.
Qed.

Lemma fill_bitmap_SHRINK (OLDNPROCS NEWNPROCS : Z) :
  NEWNPROCS < OLDNPROCS ->
  RescaleClient.fill_bitmap RescaleClient.SHRINK OLDNPROCS NEWNPROCS
  = replicate (Z.to_nat NEWNPROCS) 1
      ++ replicate (Z.to_nat OLDNPROCS - Z.to_nat NEWNPROCS) 0.
Proof.
  intros Hlt. unfold RescaleClient.fill_bitmap.
  set (n := Z.max 0 NEWNPROCS).
  replace OLDNPROCS with (n + (OLDNPROCS - n)) at 1 by lia.
  destruct (Z.le_gt_cases OLDNPROCS 0) as [Hold|Hold].
  - rewrite (seqZ_nil 0 (n + _)) by lia. simpl.
    replace (Z.to_nat NEWNPROCS) with 0%nat by lia.
    replace (Z.to_nat OLDNPROCS) with 0%nat by lia. reflexivity.
  - rewrite seqZ_app by lia. rewrite fmap_app. f_equal.
    + rewrite (fmap_constant _ 1).
      * rewrite length_seqZ. f_equal. lia.
      * intros x Hx. apply elem_of_seqZ in Hx.
        destruct (Z.ltb_spec x NEWNPROCS); [reflexivity | lia].
    + rewrite (fmap_constant _ 0).
      * rewrite length_seqZ. f_equal. lia.
      * intros x Hx. apply elem_of_seqZ in Hx.
        destruct (Z.ltb_spec x NEWNPROCS); [lia | reflexivity].
Qed.

Lemma int_bytes_little_endian (n : Z) : RescaleClient.int_bytes n = little_endian_4 n.
Proof.
  unfold RescaleClient.int_bytes, little_endian_4.
  change 255 with (Z.ones 8).
  rewrite !Z.land_ones by lia. rewrite !Z.shiftr_div_pow2 by lia.
  reflexivity.
Qed.

(** C9: for [oldProcs > 0] and [newProcs <> oldProcs] (and a connection that
    opens), the client hands [CcsSendRequest] the handler [set_bitmap] and a
    buffer of [oldProcs + 5] bytes: the bitmap of [oldProcs] bytes, all 1 on
    an expansion, the first [newProcs] of them 1 and the others 0 on a
    shrink, then [newProcs] as four little-endian bytes, then one NUL
    byte.  [oldProcs + 5] has to fit the C [int] that holds the length. *)
Theorem rescale_client_message (server : RescaleClient.CcsServer)
    (prog host a2 a3 a4 : string) (port oldProcs newProcs : Z) :
  (String.length host < 255)%nat ->
  sscanf_d a2 = Some port ->
  sscanf_d a3 = Some oldProcs ->
  sscanf_d a4 = Some newProcs ->
  RescaleClient.CcsConnect server = true ->
  0 < oldProcs -> oldProcs + 5 <= INT_MAX ->
  newProcs <> oldProcs ->
  exists out msg,
    RescaleClient.main server [prog; host; a2; a3; a4]
      = Some {| RescaleClient.stdout := out; RescaleClient.exit_code := 0;
                RescaleClient.request := Some ("set_bitmap"%string, oldProcs + 5, msg) |}
    /\ msg = keep_bitmap oldProcs newProcs ++ little_endian_4 newProcs ++ [0]
    /\ Z.of_nat (length (keep_bitmap oldProcs newProcs)) = oldProcs
    /\ Z.of_nat (length msg) = oldProcs + 5.
Proof.
  intros Hhost Hport Hold Hnew Hconn Hpos Hlen Hne.
  assert (Hk : forall mode,
            mode = (if newProcs >? oldProcs then RescaleClient.EXPAND else RescaleClient.SHRINK) ->
            RescaleClient.message mode oldProcs newProcs
            = keep_bitmap oldProcs newProcs ++ little_endian_4 newProcs ++ [0]).
  { intros mode ->. unfold RescaleClient.message, keep_bitmap.
    rewrite int_bytes_little_endian.
    destruct (Z.gtb_spec newProcs oldProcs).
    - by rewrite fill_bitmap_EXPAND.
    - rewrite fill_bitmap_SHRINK by lia. reflexivity. }
  assert (Hbl : Z.of_nat (length (keep_bitmap oldProcs newProcs)) = oldProcs).
  { unfold keep_bitmap. destruct (Z.gtb_spec newProcs oldProcs).
    - rewrite length_replicate. lia.
    - rewrite length_app, !length_replicate. lia. }
  assert (Hcs : forall mode,
            mode = (if newProcs >? oldProcs then RescaleClient.EXPAND else RescaleClient.SHRINK) ->
            exists out,
              RescaleClient.connect_and_send server (Some port) mode oldProcs newProcs
              = Some {| RescaleClient.stdout := out; RescaleClient.exit_code := 0;
                        RescaleClient.request :=
                          Some ("set_bitmap"%string, oldProcs + 5,
                                keep_bitmap oldProcs newProcs ++ little_endian_4 newProcs ++ [0]) |}).
  { intros mode Hmode. unfold RescaleClient.connect_and_send. simpl.
    rewrite Hconn. simpl.
    rewrite bool_decide_eq_true_2 by lia.
    rewrite (Hk mode Hmode).
    replace (oldProcs * 1 + 4 + 1) with (oldProcs + 5) by lia.
    destruct (RescaleClient.CcsSendRequest server); simpl; [|eauto].
    destruct (RescaleClient.CcsRecvResponse server); simpl; eauto. }
  assert (Hmain : exists out,
            RescaleClient.main server [prog; host; a2; a3; a4]
            = Some {| RescaleClient.stdout := out; RescaleClient.exit_code := 0;
                      RescaleClient.request :=
                        Some ("set_bitmap"%string, oldProcs + 5,
                              keep_bitmap oldProcs newProcs ++ little_endian_4 newProcs ++ [0]) |}).
  { unfold RescaleClient.main. simpl.
    replace (Z.of_nat (String.length host) <? RescaleClient.BUF) with true
      by (symmetry; apply Z.ltb_lt; unfold RescaleClient.BUF; lia).
    simpl. rewrite Hold, Hnew, Hport. simpl.
    destruct (Z.gtb_spec newProcs oldProcs) as [Hgt|Hle].
    - apply Hcs. destruct (Z.gtb_spec newProcs oldProcs); [reflexivity | lia].
    - destruct (Z.gtb_spec oldProcs newProcs) as [Hgt'|Hle']; [|lia].
      apply Hcs. destruct (Z.gtb_spec newProcs oldProcs); [lia | reflexivity]. }
  destruct Hmain as [out Hmain]. exists out. eexists. split; [exact Hmain|].
  split; [reflexivity|]. split; [exact Hbl|].
  rewrite length_app, length_app. simpl. lia.
Qed.

Lemma rescale_client_message_witness :
  exists out msg,
    RescaleClient.main (launcherServer true)
      ["./opt/rescale_client"; "10.0.0.9"; "1234"; "3"; "2"]%string
      = Some {| RescaleClient.stdout := out; RescaleClient.exit_code := 0;
                RescaleClient.request := Some ("set_bitmap"%string, 3 + 5, msg) |}
    /\ msg = keep_bitmap 3 2 ++ little_endian_4 2 ++ [0]
    /\ Z.of_nat (length (keep_bitmap 3 2)) = 3
    /\ Z.of_nat (length msg) = 3 + 5.
Proof.
  apply (rescale_client_message (launcherServer true) "./opt/rescale_client" "10.0.0.9"
           "1234" "3" "2" 1234 3 2);
    try reflexivity; try (vm_compute; lia); vm_compute; congruence.
Defined.

(** ** Signalling with equal process counts *)

(** C4, as the code has it: asked to rescale from [p] to [p], the client
    opens no connection and sends nothing, prints [0] and exits with status
    0; [signalRescale] reads the [0] as a failure and returns an error to
    the controller. *)
Theorem equal_rescale_is_reported_as_error (server : RescaleClient.CcsServer)
    (ipAddr : string) (port p : Z) :
  in_int32 port -> in_int32 p -> (String.length ipAddr < 255)%nat ->
  RescaleClient.main server ["./opt/rescale_client"%string; ipAddr; Sprint port; Sprint p; Sprint p]
    = Some {| RescaleClient.stdout := "0"; RescaleClient.exit_code := 0;
              RescaleClient.request := None |}
  /\ signalRescale true server ipAddr port p p = Some (Errorf "Error: 0").
Proof.
  intros Hport Hp Hip.
  assert (Hmain : RescaleClient.main server
                    ["./opt/rescale_client"%string; ipAddr; Sprint port; Sprint p; Sprint p]
                  = Some {| RescaleClient.stdout := "0"; RescaleClient.exit_code := 0;
                            RescaleClient.request := None |}).
  { unfold RescaleClient.main. simpl.
    replace (Z.of_nat (String.length ipAddr) <? RescaleClient.BUF) with true
      by (symmetry; apply Z.ltb_lt; unfold RescaleClient.BUF; lia).
    simpl. rewrite (sscanf_d_Sprint p Hp). simpl.
    replace (p >? p) with false by (symmetry; rewrite Z.gtb_ltb; apply Z.ltb_irrefl).
    reflexivity. }
  split; [exact Hmain|].
  unfold signalRescale, CombinedOutput. rewrite Hmain. reflexivity.
Qed.

Lemma equal_rescale_is_reported_as_error_witness :
  RescaleClient.main (launcherServer true)
    ["./opt/rescale_client"%string; "10.0.0.9"%string; Sprint 1234; Sprint 3; Sprint 3]
    = Some {| RescaleClient.stdout := "0"; RescaleClient.exit_code := 0;
              RescaleClient.request := None |}
  /\ signalRescale true (launcherServer true) "10.0.0.9" 1234 3 3 = Some (Errorf "Error: 0").
Proof.
  apply (equal_rescale_is_reported_as_error (launcherServer true) "10.0.0.9" 1234 3);
    vm_compute; try lia; split; discriminate.
Defined.

(** C4, as stated, fails: a rescale from 3 to 3 comes back to the
    controller as an error. *)
Lemma equal_rescale_not_ok : ~ equal_rescale_ok (launcherServer true) "10.0.0.9" ccsPort 3.
Proof. unfold equal_rescale_ok. vm_compute. discriminate. Qed.

(** ** The monad *)

Lemma bind_unfold {A B} (m : M A) (f : A -> M B) (c : MPIJobController) :
  (m ≫= f) c =
  match m c with
  | (Return a, c') => f a c'
  | (Panic msg, c') => (Panic msg, c')
  | (Diverge, c') => (Diverge, c')
  end.
Proof. reflexivity. Qed.

Lemma for_loop_S {S R} (fuel : nat) (body : S -> M (turn S R)) (s : S) (c : MPIJobController) :
  for_loop (Datatypes.S fuel) body s c =
  match body s c with
  | (Return (Continue s'), c') => for_loop fuel body s' c'
  | (Return (Break s'), c') => (Return (inl s'), c')
  | (Return (Exit r), c') => (Return (inr r), c')
  | (Panic msg, c') => (Panic msg, c')
  | (Diverge, c') => (Diverge, c')
  end.
Proof.
  simpl. rewrite bind_unfold. destruct (body s c) as [[[s'|s'|r]|msg|] c']; reflexivity.
Qed.

(** ** Admission *)

Section Admission.

Variable cl : Cluster.
Variable J : MPIJob.

(** Where the scan meets an entry of a higher priority value than the new
    job's, both passes stop and nothing has changed. *)
Lemma dryRun_stops (c : MPIJobController) (n index : Z) (R : Item) :
  n <> 0 -> 0 <= index ->
  runningJobs c !! Z.to_nat index = Some R ->
  Priority (mpiJob R) > Priority J ->
  dryRun cl J (n, index) c = (Return (Break (n, index - 1)), c).
Proof.
  intros Hn Hi HR Hp. unfold dryRun.
  replace (n =? 0) with false by (symmetry; apply Z.eqb_neq; exact Hn).
  replace (index <? 0) with false by (symmetry; apply Z.ltb_ge; exact Hi).
  simpl. rewrite bind_unfold. simpl. rewrite HR.
  replace (Priority (mpiJob R) >? Priority J) with true
    by (symmetry; apply Z.gtb_gt; exact Hp).
  reflexivity.
Qed.

Lemma commit_stops (c : MPIJobController) (n index : Z) (R : Item) :
  n <> 0 -> 0 <= index ->
  runningJobs c !! Z.to_nat index = Some R ->
  Priority (mpiJob R) > Priority J ->
  commit cl J (n, index) c = (Return (Break (n, index)), c).
Proof.
  intros Hn Hi HR Hp. unfold commit.
  replace (n =? 0) with false by (symmetry; apply Z.eqb_neq; exact Hn).
  replace (index <? 0) with false by (symmetry; apply Z.ltb_ge; exact Hi).
  simpl. rewrite bind_unfold. simpl. rewrite HR.
  replace (Priority (mpiJob R) >? Priority J) with true
    by (symmetry; apply Z.gtb_gt; exact Hp).
  reflexivity.
Qed.

(** C5: in the commit pass, at a victim [R] (an entry that the scan does not
    stop at, marked running, with more running workers than its minimum)
    whose rescale signal fails, the turn changes nothing in the controller
    (neither [latestReplicas] nor [freeSlots]), leaves the number of workers
    still to free as it was, and goes on with the next entry. *)
Theorem commit_failed_signal (c : MPIJobController) (n index : Z) (R : Item)
    (workerPodList : list Pod) (err : error) :
  n <> 0 -> 0 <= index ->
  runningJobs c !! Z.to_nat index = Some R ->
  Priority (mpiJob R) <= Priority J ->
  zeroS (jobStatus c) (getJobKey (mpiJob R)) = running ->
  getRunningWorkerPods cl (mpiJob R) = inl workerPodList ->
  int32 (Z.of_nat (length workerPodList)) > MinReplicas (mpiJob R) ->
  sendRescaleSignal cl (mpiJob R) (int32 (Z.of_nat (length workerPodList)))
    (int32 (Z.max (MinReplicas (mpiJob R)) (Z.of_nat (length workerPodList) - n)))
    = Some err ->
  commit cl J (n, index) c = (Return (Continue (n, index - 1)), c).
Proof.
  intros Hn Hi HR Hp Hst Hpods Hmin Hsig. unfold commit.
  replace (n =? 0) with false by (symmetry; apply Z.eqb_neq; exact Hn).
  replace (index <? 0) with false by (symmetry; apply Z.ltb_ge; exact Hi).
  simpl. rewrite bind_unfold. simpl. rewrite HR.
  replace (Priority (mpiJob R) >? Priority J) with false
    by (symmetry; rewrite Z.gtb_ltb; apply Z.ltb_ge; exact Hp).
  rewrite Hst. simpl. rewrite Hpods.
  replace (int32 (Z.of_nat (length workerPodList)) >? MinReplicas (mpiJob R)) with true
    by (symmetry; apply Z.gtb_gt; exact Hmin).
  rewrite Hsig. reflexivity.
Qed.

End Admission.

(** ** States that reconciles lead to *)

Lemma preemptState_reachable : reachable preemptState.
Proof.
  eapply (reachable_sync readyCluster 5 "default/low").
  - eapply (reachable_sync arrivalCluster 5 "default/low"); [apply reachable_init|].
    vm_compute. reflexivity.
  - vm_compute. reflexivity.
Qed.

Lemma stuckState_reachable : reachable stuckState.
Proof.
  eapply (reachable_sync lostPodCluster 5 "default/low"); [apply preemptState_reachable|].
  vm_compute. reflexivity.
Qed.


Section AdmissionScan.

Variable cl : Cluster.
Variable J : MPIJob.

Lemma dryRun_state (s : Z * Z) (c : MPIJobController) r c' :
  dryRun cl J s c = (r, c') -> c' = c.
Proof.
  destruct s as [n index]. unfold dryRun.
  unfold mbind, M_bind, bind, get, ret, panic.
  intros H. repeat (cbv beta iota in H; case_match; simplify_eq); reflexivity.
Qed.

Lemma dryRun_loop_state (fuel : nat) (s : Z * Z) (c : MPIJobController) r c' :
  for_loop fuel (dryRun cl J) s c = (r, c') -> c' = c.
Proof.
  revert s c. induction fuel as [|fuel IH]; intros s c.
  - simpl. unfold diverge. congruence.
  - rewrite for_loop_S.
    destruct (dryRun cl J s c) as [[[s'|s'|r0]|msg|] c1] eqn:E;
      apply dryRun_state in E; subst c1; intros H; simplify_eq; eauto.
Qed.

(** What one turn of the commit pass does to the controller. *)
Lemma commit_cases (n index : Z) (c : MPIJobController) r c' :
  commit cl J (n, index) c = (r, c') ->
  (c' = c \/
   exists R v d,
     0 <= index /\ runningJobs c !! Z.to_nat index = Some R /\
     Priority (mpiJob R) <= Priority J /\
     c' = AddRateLimited (getJobKey (mpiJob R))
            (set_freeSlots (fun n => n + d)
               (set_latestReplicas <[getJobKey (mpiJob R) := v]> c)))
  /\ (forall s', r = Return (Continue s') ->
        0 <= index /\
        exists R, runningJobs c !! Z.to_nat index = Some R /\
          Priority (mpiJob R) <= Priority J /\
          (s'.2 = index \/ s'.2 = index - 1)).
Proof.
  unfold commit. unfold mbind, M_bind, bind, get, ret, panic, modify.
  intros H.
  destruct ((n =? 0) || (index <? 0)) eqn:Eg.
  { simplify_eq. split; [by left | intros ? ?; discriminate]. }
  apply orb_false_iff in Eg as [_ Hi]. apply Z.ltb_ge in Hi.
  destruct (runningJobs c !! Z.to_nat index) as [R|] eqn:HR.
  2:{ simplify_eq. split; [by left | intros ? ?; discriminate]. }
  destruct (Priority (mpiJob R) >? Priority J) eqn:Hp.
  { simplify_eq. split; [by left | intros ? ?; discriminate]. }
  rewrite Z.gtb_ltb in Hp. apply Z.ltb_ge in Hp.
  repeat (cbv beta iota in H; case_match; simplify_eq); simpl;
    (split; [ first [ by left | right; do 3 eexists; eauto ]
            | intros s' Hs'; simplify_eq; simpl; eauto 10 ]).
Qed.

End AdmissionScan.

Section AdmissionEffect.

Variable cl : Cluster.
Variable J : MPIJob.

Lemma commit_loop_effect (fuel : nat) (n index : Z) (c : MPIJobController) r c' :
  (forall j R, index < Z.of_nat j -> runningJobs c !! j = Some R ->
     Priority (mpiJob R) <= Priority J) ->
  for_loop fuel (commit cl J) (n, index) c = (r, c') ->
  forall k, latestReplicas c' !! k <> latestReplicas c !! k ->
    exists i R, runningJobs c !! i = Some R /\ getJobKey (mpiJob R) = k /\
      tail_le J (runningJobs c) i.
Proof.
  revert n index c. induction fuel as [|fuel IH]; intros n index c Hinv.
  - simpl. unfold diverge. intros H k Hk. by simplify_eq.
  - rewrite for_loop_S.
    destruct (commit cl J (n, index) c) as [o c1] eqn:E.
    destruct (commit_cases cl J n index c o c1 E) as [Hst Hcont].
    assert (Hone : forall k, latestReplicas c1 !! k <> latestReplicas c !! k ->
              exists i R, runningJobs c !! i = Some R /\ getJobKey (mpiJob R) = k /\
                tail_le J (runningJobs c) i).
    { intros k Hk. destruct Hst as [->|(R & v & d & Hi & HR & Hp & ->)]; [done|].
      simpl in Hk. destruct (decide (getJobKey (mpiJob R) = k)) as [Heq|Hne].
      - exists (Z.to_nat index), R. split; [exact HR|]. split; [exact Heq|].
        intros j R' Hj HR'. destruct (decide (j = Z.to_nat index)) as [->|Hneq].
        + by simplify_eq.
        + apply (Hinv j R'); [lia | exact HR'].
      - by rewrite lookup_insert_ne in Hk. }
    assert (Hrun : runningJobs c1 = runningJobs c).
    { destruct Hst as [->|(R & v & d & _ & _ & _ & ->)]; reflexivity. }
    destruct o as [[[n' index']|s'|r0]|msg|]; intros H; simplify_eq; try exact Hone.
    destruct (Hcont _ eq_refl) as (Hi & R & HR & Hp & Hidx). simpl in Hidx.
    intros k Hk.
    destruct (decide (latestReplicas c' !! k = latestReplicas c1 !! k)) as [Heq|Hne].
    + apply Hone. by rewrite <- Heq.
    + rewrite <- Hrun. eapply (IH n' index' c1); [|exact H|exact Hne].
      rewrite Hrun. intros j R' Hj HR'.
      destruct (decide (j = Z.to_nat index)) as [->|Hneq].
      * by simplify_eq.
      * apply (Hinv j R'); [lia | exact HR'].
Qed.

(** C1, as the code has it: the admission of [J] changes the replica count
    of a running job only if it sits in the tail of [runningJobs] whose
    entries all have a priority value at most [J]'s.  The scan starts at the
    last entry and stops at the first one of a higher priority value than
    [J]'s: that entry and all before it are left alone; the entries of a
    lower or equal priority value behind it are the ones that get shrunk. *)
Theorem admission_shrinks_only_le (fuel : nat) (c : MPIJobController) r c' (k : string) :
  calculateWorkerReplicas cl fuel J c = (r, c') ->
  latestReplicas c' !! k <> latestReplicas c !! k ->
  exists i R, runningJobs c !! i = Some R /\ getJobKey (mpiJob R) = k /\
    forall j R', (i <= j)%nat -> runningJobs c !! j = Some R' ->
      Priority (mpiJob R') <= Priority J.
Proof.
  unfold calculateWorkerReplicas. rewrite bind_unfold. unfold get at 1. cbv beta iota zeta.
  destruct (int32 _ <? MinReplicas J).
  2:{ unfold ret. intros H Hk. by simplify_eq. }
  rewrite bind_unfold.
  destruct (for_loop fuel (dryRun cl J) _ c) as [o c1] eqn:E1.
  apply dryRun_loop_state in E1 as Hc1. subst c1.
  destruct o as [[[n1 i1]|v]|msg|]; try (unfold ret; intros H Hk; by simplify_eq).
  destruct (n1 >? 0); [unfold ret; intros H Hk; by simplify_eq|].
  rewrite bind_unfold.
  destruct (for_loop fuel (commit cl J) _ c) as [o2 c2] eqn:E2.
  intros H Hk.
  assert (Hc2 : c' = c2).
  { destruct o2 as [[[n2 i2]|v]|msg|]; unfold ret in H; try by simplify_eq.
    destruct (n2 >? 0); by simplify_eq. }
  subst c2. eapply commit_loop_effect; [|exact E2|exact Hk].
  intros j R Hj HR. apply lookup_lt_Some in HR. lia.
Qed.

End AdmissionEffect.

Lemma admission_shrinks_only_le_witness :
  exists i R, runningJobs preemptState !! i = Some R /\
    getJobKey (mpiJob R) = "default/low"%string /\
    forall j R', (i <= j)%nat -> runningJobs preemptState !! j = Some R' ->
      Priority (mpiJob R') <= Priority jobHigh.
Proof.
  apply (admission_shrinks_only_le (preemptCluster true) jobHigh 3 preemptState
           (Return (1, None))
           (calculateWorkerReplicas (preemptCluster true) 3 jobHigh preemptState).2).
  - vm_compute. reflexivity.
  - vm_compute. discriminate.
Defined.

(** C1, as stated, fails: [low] has priority value 0, the new job [high]
    has 5, and the admission of [high] shrinks [low] from 9 workers to 7. *)
Lemma admission_shrinks_a_lower_value :
  ~ never_shrinks_le (preemptCluster true) preemptState jobHigh.
Proof.
  intros H.
  specialize (H 3%nat (1, None)
                (calculateWorkerReplicas (preemptCluster true) 3 jobHigh preemptState).2).
  assert (Hrun : calculateWorkerReplicas (preemptCluster true) 3 jobHigh preemptState
                 = (Return (1, None),
                    (calculateWorkerReplicas (preemptCluster true) 3 jobHigh preemptState).2))
    by (vm_compute; reflexivity).
  specialize (H Hrun (item jobLow)).
  assert (Hin : item jobLow ∈ runningJobs preemptState) by apply list_elem_of_here.
  assert (Hle : Priority (mpiJob (item jobLow)) <= Priority jobHigh) by (vm_compute; discriminate).
  specialize (H Hin Hle). vm_compute in H. discriminate.
Qed.

Lemma commit_failed_signal_witness :
  commit (preemptCluster false) jobHigh (2, 0) preemptState
  = (Return (Continue (2, 0 - 1)), preemptState).
Proof.
  apply (commit_failed_signal (preemptCluster false) jobHigh preemptState 2 0
           (item jobLow) (workerPod "low" <$> seqZ 0 9) (Errorf "Error: 0")).
  - lia.
  - lia.
  - reflexivity.
  - vm_compute. discriminate.
  - reflexivity.
  - vm_compute. reflexivity.
  - vm_compute. reflexivity.
  - vm_compute. reflexivity.
Defined.

(** ** The commit pass that never returns *)

Lemma commit_stuck_turn :
  commit lostPodCluster jobHigh (2, 0) stuckState
  = (Return (Continue (2, 0)), stuckState).
Proof. vm_compute. reflexivity. Qed.

Lemma commit_stuck_loop (fuel : nat) :
  for_loop fuel (commit lostPodCluster jobHigh) (2, 0) stuckState
  = (Diverge, stuckState).
Proof.
  induction fuel as [|fuel IH]; [reflexivity|].
  rewrite for_loop_S, commit_stuck_turn. exact IH.
Qed.

Lemma dryRun_stuck_loop (fuel : nat) :
  for_loop (S (S fuel)) (dryRun lostPodCluster jobHigh) (2, 0) stuckState
  = (Return (inl (0, -1)), stuckState).
Proof.
  rewrite for_loop_S.
  replace (dryRun lostPodCluster jobHigh (2, 0) stuckState)
    with (Return (Continue (0, -1) : turn (Z * Z) (Z * option error)), stuckState)
    by (vm_compute; reflexivity).
  rewrite for_loop_S. reflexivity.
Qed.

(** C10 fails on the code, in a state that reconciles lead to: [low] is in
    [runningJobs] but marked queued, it has eight running workers, and
    [high] needs two slots.  The dry run
    finds them; the commit pass meets [low], sees that it is not marked
    running and goes round again without moving its cursor: whatever the
    number of turns allowed, [calculateWorkerReplicas] has not returned. *)
Theorem calculateWorkerReplicas_never_returns (fuel : nat) :
  reachable stuckState /\
  (calculateWorkerReplicas lostPodCluster fuel jobHigh stuckState).1 = Diverge.
Proof.
  split; [apply stuckState_reachable|].
  destruct fuel as [|[|fuel]]; [reflexivity | vm_compute; reflexivity |].
  unfold calculateWorkerReplicas. rewrite bind_unfold. unfold get at 1.
  cbv beta iota zeta.
  change (int32 (Z.min (freeSlots stuckState - 1) (MaxReplicas jobHigh))
          <? MinReplicas jobHigh) with true.
  cbv iota.
  change (int32 (MinReplicas jobHigh - int32 (freeSlots stuckState) + 1)) with 2.
  change (Z.of_nat (length (runningJobs stuckState)) - 1) with 0.
  rewrite bind_unfold, dryRun_stuck_loop. cbv beta iota.
  change (0 >? 0) with false. cbv iota.
  rewrite bind_unfold, commit_stuck_loop. reflexivity.
Qed.

(** ** The expansion loop *)

(** C2 fails on the code: [a] has finished and released four slots; [b]
    runs with 3 workers of at most 4, [c] with 1 of at most 8.  The first
    turn of the loop raises [b] to 4, one worker more, and takes 4, the
    whole new count, off the four free workers: none is left, the loop
    stops, and [c] gets nothing although three slots stay free. *)
Theorem expansion_charges_whole_count :
  (exists v c',
     expandBody (completionCluster CleanPodPolicyRunning) expansionStart expansionState
       = (Return (Continue v), c')
     /\ zeroZ (latestReplicas expansionState) "default/b" = 3
     /\ zeroZ (latestReplicas c') "default/b" = 4
     /\ numFreeWorkers expansionStart = 4
     /\ numFreeWorkers v = 0)
  /\ (exists c',
        syncHandler (completionCluster CleanPodPolicyRunning) 5 "default/a"
          (completionState CleanPodPolicyRunning) = (Return None, c')
        /\ freeSlots c' = 4
        /\ latestReplicas c' !! "default/b"%string = Some 4
        /\ latestReplicas c' !! "default/c"%string = Some 1).
Proof.
  split.
  - eexists _, _. split; [vm_compute; reflexivity|]. vm_compute. auto.
  - eexists. split; [vm_compute; reflexivity|]. vm_compute. auto.
Qed.

(** ** Parts of the controller that a method leaves alone *)

Lemma keeps_ret {X A} (proj : MPIJobController -> X) (a : A) : keeps proj (ret a).
Proof. intros c. reflexivity. Qed.

Lemma keeps_get {X} (proj : MPIJobController -> X) : keeps proj get.
Proof. intros c. reflexivity. Qed.

Lemma keeps_panic {X A} (proj : MPIJobController -> X) msg : keeps proj (@panic A msg).
Proof. intros c. reflexivity. Qed.

Lemma keeps_diverge {X A} (proj : MPIJobController -> X) : keeps proj (@diverge A).
Proof. intros c. reflexivity. Qed.

Lemma keeps_modify {X} (proj : MPIJobController -> X) f :
  (forall c, proj (f c) = proj c) -> keeps proj (modify f).
Proof. intros H c. apply H. Qed.

Lemma keeps_bind {X A B} (proj : MPIJobController -> X) (m : M A) (f : A -> M B) :
  keeps proj m -> (forall a, keeps proj (f a)) -> keeps proj (m ≫= f).
Proof.
  intros Hm Hf c. rewrite bind_unfold. specialize (Hm c).
  destruct (m c) as [[a|msg|] c1]; simpl in *; rewrite <- Hm; [apply Hf | reflexivity..].
Qed.

Lemma keeps_for_loop {X S R} (proj : MPIJobController -> X) (fuel : nat)
    (body : S -> M (turn S R)) (s : S) :
  (forall s, keeps proj (body s)) -> keeps proj (for_loop fuel body s).
Proof.
  intros Hbody. revert s. induction fuel as [|fuel IH]; intros s; simpl.
  - apply keeps_diverge.
  - apply keeps_bind; [apply Hbody|]. intros [s'|s'|r]; [apply IH | apply keeps_ret..].
Qed.

Ltac keeps_with tac :=
  repeat first
    [ solve [tac]
    | apply keeps_ret | apply keeps_get | apply keeps_panic | apply keeps_diverge
    | apply keeps_modify; intros; solve [tac]
    | apply keeps_for_loop; intros
    | apply keeps_bind; [|intros]
    | case_match ].

Ltac keeps_tac := keeps_with reflexivity.

Section Keeps.

Variable cl : Cluster.

Lemma removeWorker_keeps {X} (proj : MPIJobController -> X) job i :
  (forall f c, proj (set_freeSlots f c) = proj c) ->
  keeps proj (removeWorker cl job i).
Proof. intros H. unfold removeWorker. keeps_with ltac:(apply H). Qed.

Lemma removeWorkers_keeps {X} (proj : MPIJobController -> X) job l :
  (forall f c, proj (set_freeSlots f c) = proj c) ->
  keeps proj (removeWorkers cl job l).
Proof.
  intros H. induction l as [|i l IH]; simpl; [apply keeps_ret|].
  apply keeps_bind; [by apply removeWorker_keeps | intros; exact IH].
Qed.

Lemma cleanUpWorkerPods_keeps {X} (proj : MPIJobController -> X) job :
  (forall f c, proj (set_freeSlots f c) = proj c) ->
  keeps proj (cleanUpWorkerPods cl job).
Proof.
  intros H. unfold cleanUpWorkerPods, deleteWorkerPods.
  apply keeps_bind; [|intros; keeps_tac].
  apply keeps_bind; [by apply removeWorkers_keeps | intros; apply keeps_ret].
Qed.

Lemma expandBody_keeps {X} (proj : MPIJobController -> X) v :
  (forall f c, proj (set_latestReplicas f c) = proj c) ->
  (forall f c, proj (set_oldExpandReplicas f c) = proj c) ->
  (forall k c, proj (AddRateLimited k c) = proj c) ->
  keeps proj (expandBody cl v).
Proof.
  intros H1 H2 H3. unfold expandBody.
  keeps_with ltac:(first [apply H1 | apply H2 | apply H3]).
Qed.

End Keeps.

Section Finished.

Variable cl : Cluster.

Lemma releaseAndExpand_keeps {X} (proj : MPIJobController -> X) fuel key job :
  (forall f c, proj (set_freeSlots f c) = proj c) ->
  (forall f c, proj (set_latestReplicas f c) = proj c) ->
  (forall f c, proj (set_oldExpandReplicas f c) = proj c) ->
  (forall f c, proj (set_queuedJobs f c) = proj c) ->
  (forall k c, proj (AddRateLimited k c) = proj c) ->
  keeps proj (releaseAndExpand cl fuel key job).
Proof.
  intros H1 H2 H3 H4 H5. unfold releaseAndExpand.
  keeps_with ltac:(first [ by apply cleanUpWorkerPods_keeps | by apply expandBody_keeps
                         | apply H1 | apply H4 ]).
Qed.


End Finished.


(** ** Taking a finished job out of [runningJobs] *)

Lemma rangeRemove_none (key : string) (todo idx : nat) (arr : list Item) (m : nat) :
  (forall j it, (idx <= j)%nat -> arr !! j = Some it -> getJobKey (mpiJob it) <> key) ->
  rangeRemove key todo idx arr m = Some (take m arr).
Proof.
  revert idx. induction todo as [|todo IH]; intros idx H; simpl; [reflexivity|].
  destruct (arr !! idx) as [it|] eqn:E; [|reflexivity].
  destruct (String.eqb_spec (getJobKey (mpiJob it)) key) as [Heq|Hne].
  - exfalso. by apply (H idx it).
  - apply IH. intros j it' Hj. apply H. lia.
Qed.

Lemma entriesNotOf_all (key : string) (pq : PriorityQueue) :
  entriesOf key pq = [] -> entriesNotOf key pq = pq.
Proof.
  unfold entriesOf, entriesNotOf. induction pq as [|it pq IH]; [reflexivity|].
  rewrite !filter_cons. destruct (decide (getJobKey (mpiJob it) = key)) as [Heq|Hne].
  - discriminate.
  - intros H. rewrite decide_True by exact Hne. f_equal. by apply IH.
Qed.

Lemma entriesOf_nil_lookup (key : string) (pq : PriorityQueue) (j : nat) (it : Item) :
  entriesOf key pq = [] -> pq !! j = Some it -> getJobKey (mpiJob it) <> key.
Proof.
  unfold entriesOf. intros Hnil Hj Heq.
  assert (Hin : it ∈ filter (fun it => getJobKey (mpiJob it) = key) pq).
  { apply list_elem_of_filter. split; [exact Heq|]. by eapply list_elem_of_lookup_2. }
  rewrite Hnil in Hin. by apply not_elem_of_nil in Hin.
Qed.

Lemma rangeRemove_once (key : string) (todo idx : nat) (arr : list Item) :
  (todo + idx = length arr)%nat ->
  (length (entriesOf key (drop idx arr)) <= 1)%nat ->
  rangeRemove key todo idx arr (length arr)
  = Some (take idx arr ++ entriesNotOf key (drop idx arr)).
Proof.
  revert idx. induction todo as [|todo IH]; intros idx Hlen Hone.
  - simpl. rewrite drop_ge by lia. rewrite !take_ge by lia.
    unfold entriesNotOf. by rewrite filter_nil, app_nil_r.
  - simpl.
    destruct (lookup_lt_is_Some_2 arr idx) as [it Hit]; [lia|].
    rewrite Hit. rewrite (drop_S _ _ _ Hit) in Hone |- *.
    unfold entriesOf, entriesNotOf in Hone |- *. rewrite filter_cons in Hone |- *.
    destruct (String.eqb_spec (getJobKey (mpiJob it)) key) as [Heq|Hne].
    + rewrite decide_True in Hone by exact Heq.
      rewrite decide_False by (intros Hc; by apply Hc).
      simpl in Hone.
      assert (Hnil : entriesOf key (drop (S idx) arr) = []).
      { unfold entriesOf.
        destruct (filter (fun it => getJobKey (mpiJob it) = key) (drop (S idx) arr));
          [reflexivity | simpl in Hone; lia]. }
      fold (entriesNotOf key (drop (S idx) arr)).
      rewrite (entriesNotOf_all _ _ Hnil).
      replace (idx + 1 <=? length arr)%nat with true by (symmetry; apply Nat.leb_le; lia).
      replace (idx + 1)%nat with (S idx) by lia.
      assert (Htk : take (length arr - idx - 1) (drop (S idx) arr) = drop (S idx) arr).
      { apply take_ge. rewrite length_drop. lia. }
      rewrite Htk.
      rewrite rangeRemove_none.
      * f_equal. rewrite app_assoc. rewrite take_app_le.
        2:{ rewrite length_app, length_take, length_drop. lia. }
        apply take_ge. rewrite length_app, length_take, length_drop. lia.
      * intros j it' Hj Hl.
        rewrite lookup_app_r in Hl by (rewrite length_take; lia).
        rewrite length_take in Hl.
        replace (idx `min` length arr)%nat with idx in Hl by lia.
        destruct (decide (j - idx < length arr - S idx)%nat) as [Hlt|Hge].
        -- rewrite lookup_app_l in Hl by (rewrite length_drop; lia).
           by eapply (entriesOf_nil_lookup key (drop (S idx) arr)).
        -- rewrite lookup_app_r in Hl by (rewrite length_drop; lia).
           rewrite length_drop in Hl. rewrite lookup_drop in Hl.
           assert (Hrange : (length arr - 1 + (j - idx - (length arr - S idx)) < length arr)%nat)
             by (apply lookup_lt_Some in Hl; exact Hl).
           apply (entriesOf_nil_lookup key (drop (S idx) arr)
                    (length arr - 1 + (j - idx - (length arr - S idx)) - S idx)%nat it' Hnil).
           rewrite lookup_drop. rewrite <- Hl. f_equal. lia.
    + rewrite decide_False in Hone by exact Hne.
      rewrite decide_True by exact Hne.
      replace (idx + 1)%nat with (S idx) by lia.
      rewrite IH by (first [lia | exact Hone]).
      rewrite (take_S_r _ _ _ Hit). by rewrite <- app_assoc.
Qed.

(** When the job has at most one entry in [runningJobs], the loop takes it
    out and keeps the others in their order. *)
Lemma removeRunning_once (key : string) (pq : PriorityQueue) :
  (length (entriesOf key pq) <= 1)%nat ->
  removeRunning key pq = Some (entriesNotOf key pq).
Proof.
  intros H. unfold removeRunning.
  rewrite rangeRemove_once by (first [lia | exact H]). reflexivity.
Qed.

(** ** The slots that the clean-up releases *)

Section Release.

Variable cl : Cluster.

Lemma removeWorker_freeSlots (job : MPIJob) (i : Z) (c : MPIJobController) :
  exists err c1,
    removeWorker cl job i c = (Return err, c1) /\
    freeSlots c1 = freeSlots c + (if releasesSlot cl job i then 1 else 0).
Proof.
  unfold removeWorker, releasesSlot.
  destruct (getPod cl job (workerName job i)) as [pod|].
  2:{ eexists _, _. split; [reflexivity|]. simpl. lia. }
  destruct (podControlled pod); simpl.
  2:{ eexists _, _. split; [reflexivity|]. simpl. lia. }
  destruct (_ && negb (isPodRunning pod) && negb (isPodPending pod)); simpl.
  { eexists _, _. split; [reflexivity|]. simpl. lia. }
  destruct (deletePod cl (workerName job i)); simpl;
    eexists _, _; (split; [reflexivity|]); simpl; lia.
Qed.

Lemma removeWorkers_freeSlots (job : MPIJob) (l : list Z) (c : MPIJobController) :
  exists c1,
    removeWorkers cl job l c = (Return tt, c1) /\
    freeSlots c1
    = freeSlots c + Z.of_nat (length (filter (fun i => releasesSlot cl job i = true) l)).
Proof.
  revert c. induction l as [|i l IH]; intros c; simpl.
  - eexists. split; [reflexivity|]. lia.
  - rewrite bind_unfold.
    destruct (removeWorker_freeSlots job i c) as (err & c1 & -> & H1).
    destruct (IH c1) as (c2 & -> & H2). eexists. split; [reflexivity|].
    rewrite H2, H1. rewrite filter_cons.
    destruct (decide (releasesSlot cl job i = true)) as [Ht|Hf].
    + rewrite Ht. simpl length. lia.
    + destruct (releasesSlot cl job i); [congruence | lia].
Qed.

Lemma cleanUpWorkerPods_freeSlots (job : MPIJob) (c : MPIJobController) :
  exists c1,
    cleanUpWorkerPods cl job c = (Return (cleanUpError cl job), c1) /\
    freeSlots c1 = freeSlots c + releasedWorkers cl job.
Proof.
  unfold cleanUpWorkerPods, deleteWorkerPods, cleanUpError, releasedWorkers.
  rewrite !bind_unfold.
  destruct (removeWorkers_freeSlots job (seqZ 0 (MaxReplicas job)) c) as (c1 & -> & H1).
  cbv beta iota. unfold ret at 1. cbv beta iota.
  exists c1. split; [|exact H1].
  destruct (PodGroupCtrl cl); [|reflexivity].
  destruct (deletePodGroups cl (getJobKey job)); reflexivity.
Qed.

(** One turn of the expansion loop does not touch the replica count of a
    job that has no entry in the queues. *)
Lemma expandBody_foreign (key : string) (v : expandVars) (c : MPIJobController) r c' :
  foreignTo key v c ->
  expandBody cl v c = (r, c') ->
  latestReplicas c' !! key = latestReplicas c !! key /\
  runningJobs c' = runningJobs c /\ queuedJobs c' = queuedJobs c /\
  forall v', r = Return (Continue v') -> foreignTo key v' c'.
Proof.
  intros (HitR & HitQ & HR & HQ). unfold expandBody.
  unfold mbind, M_bind, bind, get, ret, panic, modify.
  assert (HlookR : forall i it, runningJobs c !! i = Some it -> getJobKey (mpiJob it) <> key).
  { intros i it. by apply entriesOf_nil_lookup. }
  assert (HlookQ : forall i it, queuedJobs c !! i = Some it -> getJobKey (mpiJob it) <> key).
  { intros i it. by apply entriesOf_nil_lookup. }
  intros H.
  destruct ((numFreeWorkers v =? 0) || _) eqn:Eg.
  { simplify_eq. split; [|split; [|split]]; try reflexivity. intros v' Hv'. discriminate. }
  cbv beta iota zeta in H.
  destruct (if idxRunning v <? _ then _ else _) as [o p] eqn:E1.
  destruct (if idxQueued v <? _ then _ else _) as [o0 p0] eqn:E2.
  assert (Ho : forall it, o = Some it -> getJobKey (mpiJob it) <> key).
  { intros it Hit. destruct (idxRunning v <? _); simplify_eq; eauto. }
  assert (Ho0 : forall it, o0 = Some it -> getJobKey (mpiJob it) <> key).
  { intros it Hit. destruct (idxQueued v <? _); simplify_eq; eauto. }
  destruct (if p <? p0 then _ else _) as [[i1 i2] it] eqn:E3.
  assert (Hit : forall i, it = Some i -> getJobKey (mpiJob i) <> key).
  { intros i Hi. destruct (p <? p0); simplify_eq; eauto. }
  assert (Hfor : forall n c1,
            runningJobs c1 = runningJobs c -> queuedJobs c1 = queuedJobs c ->
            foreignTo key {| numFreeWorkers := n; idxRunning := i1; idxQueued := i2;
                             itRunning := o; itQueued := o0 |} c1).
  { intros n c1 H1 H2. unfold foreignTo. simpl. rewrite H1, H2. auto. }
  destruct it as [i|];
    [|simplify_eq; (split; [|split; [|split]]); try reflexivity; intros; discriminate].
  specialize (Hit i eq_refl).
  repeat (cbv beta iota zeta in H; case_match; simplify_eq); simpl;
    rewrite ?lookup_insert_ne by exact Hit;
    ((split; [|split; [|split]]); try reflexivity; intros v' Hv'; simplify_eq; by apply Hfor).
Qed.

Lemma expand_loop_foreign (key : string) (fuel : nat) (v : expandVars)
    (c : MPIJobController) r c' :
  foreignTo key v c ->
  for_loop fuel (expandBody cl) v c = (r, c') ->
  latestReplicas c' !! key = latestReplicas c !! key.
Proof.
  revert v c. induction fuel as [|fuel IH]; intros v c Hf.
  - simpl. unfold diverge. intros H. by simplify_eq.
  - rewrite for_loop_S.
    destruct (expandBody cl v c) as [o c1] eqn:E.
    destruct (expandBody_foreign key v c o c1 Hf E) as (Hl & _ & _ & Hnext).
    destruct o as [[v'|v'|r0]|msg|]; intros H; simplify_eq; try exact Hl.
    rewrite <- Hl. eapply IH; [|exact H]. by apply Hnext.
Qed.

End Release.

(** ** The completion clean-up *)

Section Completion.

Variable cl : Cluster.

Lemma entriesOf_entriesNotOf (key : string) (pq : PriorityQueue) :
  entriesOf key (entriesNotOf key pq) = [].
Proof.
  unfold entriesOf, entriesNotOf. induction pq as [|it pq IH]; [reflexivity|].
  rewrite filter_cons. destruct (decide (getJobKey (mpiJob it) <> key)) as [Hne|Heq].
  - rewrite filter_cons. by rewrite decide_False.
  - exact IH.
Qed.

Lemma releaseAndExpand_ledger (fuel : nat) (key : string) (job : MPIJob)
    (c : MPIJobController) r c' :
  entriesOf key (runningJobs c) = [] ->
  entriesOf key (queuedJobs c) = [] ->
  releaseAndExpand cl fuel key job c = (r, c') ->
  freeSlots c'
  = freeSlots c
    + (if isCleanUpPods (cleanPodPolicy job)
       then releasedWorkers cl job + match cleanUpError cl job with Some _ => 0 | None => 1 end
       else 0)
  /\ latestReplicas c' !! key = latestReplicas c !! key.
Proof.
  intros HR HQ. unfold releaseAndExpand.
  destruct (isCleanUpPods (cleanPodPolicy job)).
  2:{ unfold ret. intros H. simplify_eq. split; [lia | reflexivity]. }
  rewrite bind_unfold.
  pose proof (cleanUpWorkerPods_keeps cl latestReplicas job (fun _ _ => eq_refl) c) as Hk1.
  pose proof (cleanUpWorkerPods_keeps cl runningJobs job (fun _ _ => eq_refl) c) as Hk2.
  pose proof (cleanUpWorkerPods_keeps cl queuedJobs job (fun _ _ => eq_refl) c) as Hk3.
  destruct (cleanUpWorkerPods_freeSlots cl job c) as (c1 & E & H1).
  rewrite E in Hk1, Hk2, Hk3 |- *. cbn [snd] in Hk1, Hk2, Hk3. cbv beta iota.
  destruct (cleanUpError cl job) as [e|].
  { unfold ret. intros H. simplify_eq. rewrite H1, Hk1. split; [lia | reflexivity]. }
  rewrite bind_unfold. unfold modify at 1. cbv beta iota.
  rewrite bind_unfold. unfold get at 1. cbv beta iota.
  rewrite bind_unfold.
  set (c2 := set_freeSlots (fun n => n + 1) c1).
  set (v0 := {| numFreeWorkers := freeSlots c2; idxRunning := 0; idxQueued := 0;
                itRunning := None; itQueued := None |}).
  assert (Hf : foreignTo key v0 c2).
  { unfold foreignTo, v0, c2. cbn [itRunning itQueued runningJobs queuedJobs set_freeSlots].
    rewrite Hk2, Hk3. split; [|split; [|split]]; try done. }
  pose proof (keeps_for_loop freeSlots fuel (expandBody cl) v0
                (fun v => expandBody_keeps cl freeSlots v
                            (fun _ _ => eq_refl) (fun _ _ => eq_refl) (fun _ _ => eq_refl)) c2) as Hfs.
  destruct (for_loop fuel (expandBody cl) v0 c2) as [o c3] eqn:E3.
  pose proof (expand_loop_foreign cl key fuel v0 c2 o c3 Hf E3) as Hl3.
  cbn [snd] in Hfs.
  assert (Hc2 : freeSlots c2 = freeSlots c + (releasedWorkers cl job + 1))
    by (unfold c2; cbn [freeSlots set_freeSlots]; lia).
  assert (Hl2 : latestReplicas c2 !! key = latestReplicas c !! key)
    by (unfold c2; cbn [latestReplicas set_freeSlots]; by rewrite Hk1).
  assert (Hdone : freeSlots c3 = freeSlots c + (releasedWorkers cl job + 1)
                  /\ latestReplicas c3 !! key = latestReplicas c !! key).
  { rewrite Hfs, Hl3. split; [exact Hc2 | exact Hl2]. }
  destruct o as [[v|err]|msg|]; cbv beta iota; unfold ret, panic;
    try (intros H; simplify_eq; exact Hdone).
  rewrite bind_unfold. unfold get at 1. cbv beta iota.
  destruct (idxQueued v >? Z.of_nat (length (queuedJobs c3))).
  - intros H. simplify_eq. exact Hdone.
  - rewrite bind_unfold. unfold modify at 1. cbv beta iota.
    intros H. simplify_eq. exact Hdone.
Qed.

(** C7, as the code has it: the first reconcile of a finished job [key]
    (CompletionTime set, a status in [jobStatus], at most one entry in
    [runningJobs], none in [queuedJobs]) takes the job out of [runningJobs]
    and out of [latestReplicas], [jobStatus], [configMaps] and
    [deferredAction] under every clean-pod policy.  The ledger moves only
    when the policy is Running or All: [freeSlots] then grows by one per
    worker pod deleted and by one more for the launcher, unless the deletion
    of the pod group fails first; under the policy None no slot is
    released. *)
Theorem completion_cleanup (fuel : nat) (key : string) (job : MPIJob)
    (c : MPIJobController) r c' :
  mpiJobLister cl key = Found job -> getJobKey job = key ->
  DeletionTimestamp job = false -> ValidateMPIJob cl job = true ->
  isFinished job = true -> CompletionTime job = true ->
  is_Some (jobStatus c !! key) ->
  (length (entriesOf key (runningJobs c)) <= 1)%nat ->
  entriesOf key (queuedJobs c) = [] ->
  syncHandler cl fuel key c = (r, c') ->
  runningJobs c' = entriesNotOf key (runningJobs c) /\
  latestReplicas c' !! key = None /\
  jobStatus c' = delete key (jobStatus c) /\
  configMaps c' = delete key (configMaps c) /\
  deferredAction c' = delete key (deferredAction c) /\
  freeSlots c'
  = freeSlots c
    + (if isCleanUpPods (cleanPodPolicy job)
       then releasedWorkers cl job + match cleanUpError cl job with Some _ => 0 | None => 1 end
       else 0).
Proof.
  intros Hjob Hkey Hdel Hval Hfin Hct [st Hst] Hone HQ Hrun.
  unfold syncHandler in Hrun. rewrite Hjob, Hdel, Hval, Hfin, Hct in Hrun.
  cbn [negb andb] in Hrun.
  unfold syncFinished in Hrun. rewrite bind_unfold in Hrun. unfold get at 1 in Hrun.
  cbv beta iota in Hrun. rewrite Hst in Hrun.
  unfold modify in Hrun. repeat (rewrite bind_unfold in Hrun; cbv beta iota in Hrun).
  rewrite Hkey, (removeRunning_once key _ Hone) in Hrun.
  repeat (rewrite bind_unfold in Hrun; cbv beta iota in Hrun).
  set (c2 := set_runningJobs _ _) in Hrun.
  assert (HR2 : entriesOf key (runningJobs c2) = [])
    by (unfold c2; cbn [runningJobs set_runningJobs]; apply entriesOf_entriesNotOf).
  assert (HQ2 : entriesOf key (queuedJobs c2) = []) by exact HQ.
  destruct (releaseAndExpand_ledger fuel key job c2 r c' HR2 HQ2 Hrun) as [Hfs Hl].
  assert (Hc' : c' = (releaseAndExpand cl fuel key job c2).2) by (by rewrite Hrun).
  rewrite Hfs, Hl. rewrite Hc'.
  rewrite (releaseAndExpand_keeps cl runningJobs) by reflexivity.
  rewrite (releaseAndExpand_keeps cl jobStatus) by reflexivity.
  rewrite (releaseAndExpand_keeps cl configMaps) by reflexivity.
  rewrite (releaseAndExpand_keeps cl deferredAction) by reflexivity.
  unfold c2.
  cbn [runningJobs jobStatus configMaps deferredAction latestReplicas freeSlots
       set_runningJobs set_configMaps set_jobStatus set_latestReplicas set_deferredAction].
  split; [reflexivity|]. split; [apply lookup_delete_eq|]. auto.
Qed.

End Completion.

Lemma completion_cleanup_witness :
  runningJobs completionRun.2
  = entriesNotOf "default/a" (runningJobs (completionState CleanPodPolicyRunning)) /\
  latestReplicas completionRun.2 !! "default/a"%string = None /\
  jobStatus completionRun.2
  = delete "default/a"%string (jobStatus (completionState CleanPodPolicyRunning)) /\
  configMaps completionRun.2
  = delete "default/a"%string (configMaps (completionState CleanPodPolicyRunning)) /\
  deferredAction completionRun.2
  = delete "default/a"%string (deferredAction (completionState CleanPodPolicyRunning)) /\
  freeSlots completionRun.2
  = freeSlots (completionState CleanPodPolicyRunning)
    + (if isCleanUpPods (cleanPodPolicy (jobA CleanPodPolicyRunning))
       then releasedWorkers (completionCluster CleanPodPolicyRunning) (jobA CleanPodPolicyRunning)
            + match cleanUpError (completionCluster CleanPodPolicyRunning)
                      (jobA CleanPodPolicyRunning) with
              | Some _ => 0
              | None => 1
              end
       else 0).
Proof.
  apply (completion_cleanup (completionCluster CleanPodPolicyRunning) 5 "default/a"
           (jobA CleanPodPolicyRunning) (completionState CleanPodPolicyRunning)
           completionRun.1 completionRun.2).
  - vm_compute; reflexivity.
  - vm_compute; reflexivity.
  - vm_compute; reflexivity.
  - vm_compute; reflexivity.
  - vm_compute; reflexivity.
  - vm_compute; reflexivity.
  - vm_compute. eauto.
  - vm_compute. lia.
  - vm_compute; reflexivity.
  - vm_compute; reflexivity.
Defined.

(** C7, as stated, fails: under the clean-pod policy None the first
    reconcile of the finished job [a] releases no slot, not even the
    launcher's. *)
Lemma no_slot_released_under_policy_None :
  ~ releases_launcher_slot (completionCluster CleanPodPolicyNone) 5 "default/a"
      (completionState CleanPodPolicyNone).
Proof. unfold releases_launcher_slot. vm_compute. intros H. apply H. reflexivity. Qed.

(** ** A finished job reconciled twice *)

Section Twice.

Variable cl : Cluster.



End Twice.


(** Where every worker pod and the pod group can be deleted, the two passes
    do free the four slots that [a] held. *)
Lemma two_passes_free_all_slots :
  frees_slots_once (completionCluster CleanPodPolicyRunning) 5 "default/a"
    (completionState CleanPodPolicyRunning).
Proof. unfold frees_slots_once. vm_compute. split; reflexivity. Qed.


(** ** The ledger below zero *)

(** C8 fails on the code.  [low] (1 to 9 workers) arrives in the empty pool
    of ten slots: its first reconcile reserves the launcher and creates
    nine pods, [freeSlots] is 0; the second creates the launcher.  The
    cluster then loses one worker pod.  The third reconcile wants to
    replace it, finds no free slot and marks [low] queued.  The fourth sees
    a queued job with a positive replica count and takes the slot of its
    launcher once more, from a ledger that is empty: [freeSlots] is -1.
    No call to the cluster fails on the way. *)
Theorem freeSlots_goes_negative :
  reachable (syncHandler lostPodCluster 5 "default/low" stuckState).2 /\
  freeSlots stuckState = 0 /\
  syncHandler lostPodCluster 5 "default/low" stuckState
  = (Return None, set_freeSlots (fun _ => -1) (set_jobStatus <["default/low"%string := created]> stuckState)) /\
  freeSlots (syncHandler lostPodCluster 5 "default/low" stuckState).2 = -1.
Proof.
  split.
  - eapply (reachable_sync lostPodCluster 5 "default/low"); [apply stuckState_reachable|].
    vm_compute. reflexivity.
  - split; [reflexivity|]. split; vm_compute; reflexivity.
Qed.

(** ** Properties kept by the controller methods *)

Lemma preserves_ret {A} (P : MPIJobController -> Prop) (a : A) : preserves P (ret a).
Proof. intros c H. exact H. Qed.

Lemma preserves_get (P : MPIJobController -> Prop) : preserves P get.
Proof. intros c H. exact H. Qed.

Lemma preserves_panic {A} (P : MPIJobController -> Prop) msg : preserves P (@panic A msg).
Proof. intros c H. exact H. Qed.

Lemma preserves_diverge {A} (P : MPIJobController -> Prop) : preserves P (@diverge A).
Proof. intros c H. exact H. Qed.

Lemma preserves_modify (P : MPIJobController -> Prop) f :
  (forall c, P c -> P (f c)) -> preserves P (modify f).
Proof. intros H c Hc. by apply H. Qed.

Lemma preserves_bind {A B} (P : MPIJobController -> Prop) (m : M A) (f : A -> M B) :
  preserves P m -> (forall a, preserves P (f a)) -> preserves P (m ≫= f).
Proof.
  intros Hm Hf c Hc. rewrite bind_unfold. specialize (Hm c Hc).
  destruct (m c) as [[a|msg|] c1]; simpl in *; [by apply Hf | exact Hm..].
Qed.

Lemma preserves_for_loop {S R} (P : MPIJobController -> Prop) (fuel : nat)
    (body : S -> M (turn S R)) (s : S) :
  (forall s, preserves P (body s)) -> preserves P (for_loop fuel body s).
Proof.
  intros Hbody. revert s. induction fuel as [|fuel IH]; intros s; simpl.
  - apply preserves_diverge.
  - apply preserves_bind; [apply Hbody|]. intros [s'|s'|r]; [apply IH | apply preserves_ret..].
Qed.

Lemma keeps_preserves {X A} (proj : MPIJobController -> X) (Q : X -> Prop) (m : M A) :
  keeps proj m -> preserves (fun c => Q (proj c)) m.
Proof. intros H c Hc. by rewrite H. Qed.

Ltac preserves_with tac :=
  repeat first
    [ solve [tac]
    | apply preserves_ret | apply preserves_get | apply preserves_panic
    | apply preserves_diverge
    | apply preserves_modify; solve [tac]
    | apply preserves_for_loop; intros
    | apply preserves_bind; [|intros]
    | case_match ].

Section KeepsMore.

Variable cl : Cluster.

Lemma dryRun_keeps {X} (proj : MPIJobController -> X) job s : keeps proj (dryRun cl job s).
Proof.
  intros c. destruct (dryRun cl job s c) as [r c'] eqn:E.
  apply dryRun_state in E. by subst.
Qed.

Lemma commit_keeps {X} (proj : MPIJobController -> X) job s :
  (forall f c, proj (set_latestReplicas f c) = proj c) ->
  (forall f c, proj (set_freeSlots f c) = proj c) ->
  (forall k c, proj (AddRateLimited k c) = proj c) ->
  keeps proj (commit cl job s).
Proof.
  intros H1 H2 H3. unfold commit. destruct s as [n index].
  keeps_with ltac:(first [apply H1 | apply H2 | apply H3]).
Qed.

Lemma calculateWorkerReplicas_keeps {X} (proj : MPIJobController -> X) fuel job :
  (forall f c, proj (set_latestReplicas f c) = proj c) ->
  (forall f c, proj (set_freeSlots f c) = proj c) ->
  (forall k c, proj (AddRateLimited k c) = proj c) ->
  keeps proj (calculateWorkerReplicas cl fuel job).
Proof.
  intros H1 H2 H3. unfold calculateWorkerReplicas.
  keeps_with ltac:(first [apply dryRun_keeps | by apply commit_keeps]).
Qed.

Lemma enqueueJobInternal_keeps {X} (proj : MPIJobController -> X) job :
  (forall f c, proj (set_queuedJobs f c) = proj c) ->
  (forall f c, proj (set_jobStatus f c) = proj c) ->
  keeps proj (enqueueJobInternal job).
Proof.
  intros H1 H2. unfold enqueueJobInternal.
  keeps_with ltac:(first [apply H1 | apply H2]).
Qed.

Lemma addWorker_keeps {X} (proj : MPIJobController -> X) job i :
  (forall f c, proj (set_freeSlots f c) = proj c) ->
  keeps proj (addWorker cl job i).
Proof. intros H. unfold addWorker. keeps_with ltac:(apply H). Qed.

Lemma addWorkers_keeps {X} (proj : MPIJobController -> X) job l acc :
  (forall f c, proj (set_freeSlots f c) = proj c) ->
  keeps proj (addWorkers cl job l acc).
Proof.
  intros H. revert acc. induction l as [|i l IH]; intros acc; simpl; [apply keeps_ret|].
  apply keeps_bind; [by apply addWorker_keeps|].
  intros [pod err]. destruct err; [apply keeps_ret|]. destruct pod; apply IH.
Qed.

Lemma getOrCreateWorker_keeps {X} (proj : MPIJobController -> X) job :
  (forall f c, proj (set_freeSlots f c) = proj c) ->
  keeps proj (getOrCreateWorker cl job).
Proof.
  intros H. unfold getOrCreateWorker.
  keeps_with ltac:(by apply addWorkers_keeps).
Qed.

Lemma getOrCreateConfigMap_keeps {X} (proj : MPIJobController -> X) job :
  keeps proj (getOrCreateConfigMap cl job).
Proof. unfold getOrCreateConfigMap. keeps_with fail. Qed.

Lemma checkJobQueue_keeps {X} (proj : MPIJobController -> X) fuel :
  (forall f c, proj (set_latestReplicas f c) = proj c) ->
  (forall f c, proj (set_freeSlots f c) = proj c) ->
  (forall f c, proj (set_queuedJobs f c) = proj c) ->
  (forall k c, proj (AddRateLimited k c) = proj c) ->
  keeps proj (checkJobQueue cl fuel).
Proof.
  intros H1 H2 H3 H4. unfold checkJobQueue, checkJobQueueBody.
  keeps_with ltac:(first [ by apply calculateWorkerReplicas_keeps
                         | apply H1 | apply H3 | apply H4 ]).
Qed.

End KeepsMore.

(** ** The statuses that the controller stores *)

Section StatusKnown.

Variable cl : Cluster.

Lemma keeps_statusKnown {A} (m : M A) : keeps jobStatus m -> preserves statusKnown m.
Proof. intros H c Hc k s. rewrite H. apply Hc. Qed.

Lemma statusKnown_insert (k s : string) (c : MPIJobController) :
  s = created \/ s = queued \/ s = running ->
  statusKnown c -> statusKnown (set_jobStatus <[k := s]> c).
Proof.
  intros Hs Hc k' s'. simpl. destruct (decide (k = k')) as [->|Hne].
  - rewrite lookup_insert_eq. intros [= <-]. exact Hs.
  - rewrite lookup_insert_ne by exact Hne. apply Hc.
Qed.

Lemma statusKnown_delete (k : string) (c : MPIJobController) :
  statusKnown c -> statusKnown (set_jobStatus (delete k) c).
Proof.
  intros Hc k' s'. simpl. destruct (decide (k = k')) as [->|Hne].
  - by rewrite lookup_delete_eq.
  - rewrite lookup_delete_ne by exact Hne. apply Hc.
Qed.

Ltac status_leaf :=
  first
    [ apply keeps_statusKnown;
      first [ by apply calculateWorkerReplicas_keeps
            | by apply getOrCreateWorker_keeps
            | apply getOrCreateConfigMap_keeps
            | by apply checkJobQueue_keeps
            | by apply cleanUpWorkerPods_keeps
            | by apply releaseAndExpand_keeps ]
    | let st := fresh "st" in
      let Hst := fresh "Hst" in
      intros st Hst;
      first [ exact Hst
            | apply statusKnown_insert; [auto | exact Hst]
            | apply statusKnown_delete; exact Hst ] ].

Lemma enqueueJobInternal_statusKnown job : preserves statusKnown (enqueueJobInternal job).
Proof. unfold enqueueJobInternal. preserves_with status_leaf. Qed.

Lemma syncWorkers_statusKnown fuel key job :
  preserves statusKnown (syncWorkers cl fuel key job).
Proof.
  unfold syncWorkers.
  preserves_with ltac:(first [apply enqueueJobInternal_statusKnown | status_leaf]).
Qed.

Lemma syncNotDone_statusKnown fuel key job launcher :
  preserves statusKnown (syncNotDone cl fuel key job launcher).
Proof.
  unfold syncNotDone.
  preserves_with ltac:(first [apply syncWorkers_statusKnown | status_leaf]).
Qed.

Lemma syncFinished_statusKnown fuel key job :
  preserves statusKnown (syncFinished cl fuel key job).
Proof. unfold syncFinished. preserves_with status_leaf. Qed.

Lemma syncHandler_statusKnown fuel key : preserves statusKnown (syncHandler cl fuel key).
Proof.
  unfold syncHandler.
  preserves_with ltac:(first [ apply syncNotDone_statusKnown
                             | apply syncFinished_statusKnown | status_leaf ]).
Qed.

End StatusKnown.

(** X1: in every state that reconciles lead to, the status stored for a job
    is created, queued or running; the status completed is never stored (a
    finished job is taken out of [jobStatus] instead). *)
Theorem reachable_statusKnown (c : MPIJobController) : reachable c -> statusKnown c.
Proof.
  induction 1 as [|cl fuel key c err c' Hc IH Hrun].
  - intros k s. simpl. by rewrite lookup_empty.
  - pose proof (syncHandler_statusKnown cl fuel key c IH) as H.
    by rewrite Hrun in H.
Qed.

Lemma reachable_statusKnown_witness : statusKnown stuckState.
Proof. apply (reachable_statusKnown stuckState). apply stuckState_reachable. Defined.

(** ** The order of the queues *)

Lemma ascending_sublist (l1 l2 : list Item) :
  l1 `sublist_of` l2 -> ascending l2 -> ascending l1.
Proof.
  unfold ascending. induction 1 as [|x l1 l2 Hsub IH|x l1 l2 Hsub IH]; intros H.
  - constructor.
  - inversion H as [|? ? Hl Hx]; subst. constructor; [by apply IH|].
    rewrite Forall_forall in Hx |- *. intros y Hy. apply Hx.
    eapply elem_of_submseteq; [exact Hy|by apply sublist_submseteq].
  - inversion H; subst. by apply IH.
Qed.

Lemma rangeRemove_sublist (key : string) (todo idx : nat) (arr : list Item) (m : nat)
    (res : list Item) :
  (m <= length arr)%nat ->
  rangeRemove key todo idx arr m = Some res ->
  res `sublist_of` take m arr.
Proof.
  revert idx arr m. induction todo as [|todo IH]; intros idx arr m Hm; simpl.
  - intros [= <-]. reflexivity.
  - destruct (arr !! idx) as [it|] eqn:Hit; [|intros [= <-]; reflexivity].
    destruct (String.eqb (getJobKey (mpiJob it)) key); [|by apply IH].
    destruct (Nat.leb_spec (idx + 1) m) as [Hle|]; [|discriminate].
    intros Hres. apply IH in Hres.
    2:{ rewrite !length_app, !length_take, !length_drop. lia. }
    etrans; [exact Hres|].
    rewrite app_assoc, take_app_length'.
    2:{ rewrite length_app, !length_take, !length_drop. lia. }
    replace m with (idx + (m - idx))%nat at 2 by lia.
    rewrite <- take_take_drop. apply sublist_app; [reflexivity|].
    rewrite <- (drop_drop arr 1 idx).
    replace (m - idx)%nat with (S (m - idx - 1)) by lia.
    destruct (drop idx arr) as [|x L]; simpl; [by rewrite take_nil|].
    rewrite ?drop_0, ?Nat.sub_0_r. apply sublist_cons. reflexivity.
Qed.

Lemma removeRunning_sublist (key : string) (pq res : list Item) :
  removeRunning key pq = Some res -> res `sublist_of` pq.
Proof.
  unfold removeRunning. intros H. apply rangeRemove_sublist in H; [|lia].
  by rewrite take_ge in H by lia.
Qed.

Lemma existsb_keysOf (k : string) (pq : list Item) :
  existsb (fun item => String.eqb (getJobKey (mpiJob item)) k) pq = false ->
  k ∉ keysOf pq.
Proof.
  unfold keysOf. induction pq as [|it pq IH]; simpl; intros H.
  - apply not_elem_of_nil.
  - apply orb_false_iff in H as [H1 H2]. apply not_elem_of_cons. split; [|by apply IH].
    intros ->. by rewrite String.eqb_refl in H1.
Qed.

(** A property of [queuedJobs] that removing entries keeps, and that adding
    a job under a new key keeps, holds after every controller method. *)
Section QueuedJobs.

Variable cl : Cluster.
Variable Q : list Item -> Prop.
Hypothesis Q_sublist : forall l1 l2, l1 `sublist_of` l2 -> Q l2 -> Q l1.
Hypothesis Q_Push : forall pq x,
  getJobKey (mpiJob x) ∉ keysOf pq -> Q pq -> Q (Push pq x).

Lemma keeps_queued {A} (m : M A) : keeps queuedJobs m -> preserves (onQueued Q) m.
Proof. apply (keeps_preserves queuedJobs Q). Qed.

Lemma enqueueJobInternal_queued job : preserves (onQueued Q) (enqueueJobInternal job).
Proof.
  intros c Hc. unfold enqueueJobInternal. rewrite bind_unfold. unfold get.
  cbv beta iota zeta.
  destruct (existsb _ (queuedJobs c)) eqn:E; [exact Hc|].
  unfold mbind, M_bind, bind, modify. simpl.
  apply Q_Push; [|exact Hc]. simpl. by apply existsb_keysOf.
Qed.

Ltac queued_leaf :=
  first
    [ apply keeps_queued;
      first [ by apply calculateWorkerReplicas_keeps
            | by apply getOrCreateWorker_keeps
            | apply getOrCreateConfigMap_keeps
            | by apply cleanUpWorkerPods_keeps
            | by apply expandBody_keeps ]
    | apply enqueueJobInternal_queued
    | let st := fresh "st" in
      let Hst := fresh "Hst" in
      intros st Hst; unfold onQueued in *; simpl;
      first [ exact Hst
            | eapply Q_sublist; [|exact Hst];
              first [ apply sublist_drop | apply sublist_take
                    | apply sublist_delete ] ] ].

Lemma checkJobQueue_queued fuel : preserves (onQueued Q) (checkJobQueue cl fuel).
Proof.
  unfold checkJobQueue, checkJobQueueBody.
  preserves_with queued_leaf.
  apply preserves_modify. intros st Hst. unfold onQueued in *. simpl.
  eapply Q_sublist; [|exact Hst].
  case_match; [|apply sublist_take].
  match goal with |- take ?n _ ++ _ `sublist_of` _ =>
    rewrite <- (take_drop n (queuedJobs st)) at 3;
    apply sublist_app; [reflexivity|];
    rewrite <- (drop_drop (queuedJobs st) 1 n)
  end.
  apply sublist_drop.
Qed.

Lemma releaseAndExpand_queued fuel key job : preserves (onQueued Q) (releaseAndExpand cl fuel key job).
Proof. unfold releaseAndExpand. preserves_with queued_leaf. Qed.

Lemma syncFinished_queued fuel key job : preserves (onQueued Q) (syncFinished cl fuel key job).
Proof.
  unfold syncFinished.
  preserves_with ltac:(first [apply releaseAndExpand_queued | queued_leaf]).
Qed.

Lemma syncWorkers_queued fuel key job : preserves (onQueued Q) (syncWorkers cl fuel key job).
Proof. unfold syncWorkers. preserves_with queued_leaf. Qed.

Lemma syncNotDone_queued fuel key job launcher :
  preserves (onQueued Q) (syncNotDone cl fuel key job launcher).
Proof.
  unfold syncNotDone.
  preserves_with ltac:(first
    [ apply syncWorkers_queued | apply checkJobQueue_queued | queued_leaf ]).
Qed.

Lemma syncHandler_queued fuel key : preserves (onQueued Q) (syncHandler cl fuel key).
Proof.
  unfold syncHandler.
  preserves_with ltac:(first
    [ apply syncNotDone_queued | apply syncFinished_queued | queued_leaf ]).
Qed.

End QueuedJobs.

Lemma reachable_queued (Q : list Item -> Prop) :
  (forall l1 l2, l1 `sublist_of` l2 -> Q l2 -> Q l1) ->
  (forall pq x, getJobKey (mpiJob x) ∉ keysOf pq -> Q pq -> Q (Push pq x)) ->
  Q [] ->
  forall c, reachable c -> Q (queuedJobs c).
Proof.
  intros H1 H2 H3. induction 1 as [|cl fuel key c err c' Hc IH Hrun].
  - exact H3.
  - pose proof (syncHandler_queued cl Q H1 H2 fuel key c IH) as H.
    by rewrite Hrun in H.
Qed.

(** The running jobs stay in ascending order of priority. *)
Section RunningJobs.

Variable cl : Cluster.

Lemma keeps_running {A} (m : M A) : keeps runningJobs m -> preserves runningAscending m.
Proof. apply (keeps_preserves runningJobs ascending). Qed.

Ltac running_leaf :=
  first
    [ apply keeps_running;
      first [ by apply calculateWorkerReplicas_keeps
            | by apply getOrCreateWorker_keeps
            | apply getOrCreateConfigMap_keeps
            | by apply cleanUpWorkerPods_keeps
            | by apply releaseAndExpand_keeps
            | by apply enqueueJobInternal_keeps
            | by apply checkJobQueue_keeps ]
    | let st := fresh "st" in
      let Hst := fresh "Hst" in
      intros st Hst; unfold runningAscending in *; simpl;
      first [ exact Hst | apply Push_ascending ] ].

Lemma syncFinished_running fuel key job : preserves runningAscending (syncFinished cl fuel key job).
Proof.
  intros c Hc. unfold syncFinished. rewrite bind_unfold. unfold get.
  cbv beta iota zeta. destruct (jobStatus c !! key); [|exact Hc].
  destruct (removeRunning (getJobKey job) (runningJobs c)) as [pq|] eqn:E.
  - assert (Hpq : ascending pq).
    { eapply ascending_sublist; [|exact Hc]. by eapply removeRunning_sublist. }
    revert Hpq. generalize pq. clear. intros pq Hpq.
    assert (H : preserves (fun c => ascending (runningJobs c))
                  (releaseAndExpand cl fuel key job)) by running_leaf.
    unfold mbind, M_bind, bind, modify. cbv beta iota zeta.
    apply H. exact Hpq.
  - unfold mbind, M_bind, bind, modify, panic. cbv beta iota zeta. exact Hc.
Qed.

Lemma syncWorkers_running fuel key job : preserves runningAscending (syncWorkers cl fuel key job).
Proof. unfold syncWorkers. preserves_with running_leaf. Qed.

Lemma syncNotDone_running fuel key job launcher :
  preserves runningAscending (syncNotDone cl fuel key job launcher).
Proof.
  unfold syncNotDone.
  preserves_with ltac:(first [apply syncWorkers_running | running_leaf]).
Qed.

Lemma syncHandler_running fuel key : preserves runningAscending (syncHandler cl fuel key).
Proof.
  unfold syncHandler.
  preserves_with ltac:(first
    [ apply syncNotDone_running | apply syncFinished_running | running_leaf ]).
Qed.

End RunningJobs.

Lemma ascending_nil : ascending [].
Proof. constructor. Qed.

(** X2: after any sequence of reconciles both queues of the controller are
    in ascending order of priority: [Push] sorts, and every removal takes
    entries out without reordering the others. *)
Theorem reachable_queuesAscending (c : MPIJobController) :
  reachable c -> queuesAscending c.
Proof.
  intros Hc. split.
  - induction Hc as [|cl fuel key c err c' Hc IH Hrun]; [apply ascending_nil|].
    pose proof (syncHandler_running cl fuel key c IH) as H.
    by rewrite Hrun in H.
  - apply (reachable_queued ascending); [apply ascending_sublist| |apply ascending_nil|exact Hc].
    intros pq x _ _. apply Push_ascending.
Qed.

Lemma reachable_queuesAscending_witness : queuesAscending stuckState.
Proof. apply (reachable_queuesAscending stuckState). apply stuckState_reachable. Defined.

(** X3: after any sequence of reconciles no job has two entries in the
    queue of waiting jobs. *)
Theorem reachable_queuedOnce (c : MPIJobController) : reachable c -> queuedOnce c.
Proof.
  unfold queuedOnce. apply (reachable_queued (fun pq => NoDup (keysOf pq))).
  - intros l1 l2 Hsub H. eapply sublist_NoDup; [exact H|]. unfold keysOf. by apply fmap_sublist.
  - intros pq x Hx Hpq. unfold keysOf.
    rewrite (fmap_Permutation _ _ _ (Push_Permutation pq x)). simpl.
    apply NoDup_cons. by split.
  - apply NoDup_nil_2.
Qed.

Lemma reachable_queuedOnce_witness : queuedOnce stuckState.
Proof. apply (reachable_queuedOnce stuckState). apply stuckState_reachable. Defined.

(** ** More on the priority queues *)

(** X4: [Push] loses no entry, adds the new one once, and leaves the queue
    in ascending order of priority, whatever order it was in before. *)
Theorem Push_sorts_and_keeps (pq : PriorityQueue) (x : Item) :
  ascending (Push pq x) /\ Push pq x ≡ₚ x :: pq.
Proof. split; [apply Push_ascending | apply Push_Permutation]. Qed.

(** X5: [Pop] right after a [Push] never panics: it hands out an entry whose
    priority value is at least that of every entry of the queue and of the
    pushed one, and leaves all the others. *)
Theorem Pop_after_Push (pq : PriorityQueue) (x : Item) :
  exists it rest,
    Pop (Push pq x) = Some (it, rest) /\
    it :: rest ≡ₚ x :: pq /\
    forall y, y ∈ x :: pq -> priority y <= priority it.
Proof.
  pose proof (Push_Permutation pq x) as Hperm.
  pose proof (Push_ascending pq x) as Hasc.
  assert (Hne : Push pq x <> []).
  { intros E. rewrite E in Hperm. by apply Permutation_nil_cons in Hperm. }
  destruct (exists_last Hne) as (rest & it & E). rewrite E in Hperm, Hasc |- *.
  exists it, rest. unfold Pop.
  rewrite last_snoc, length_app. simpl.
  replace (length rest + 1 - 1)%nat with (length rest) by lia.
  rewrite take_app_length. split; [reflexivity|].
  split.
  - rewrite <- Hperm. apply Permutation_cons_append.
  - intros z Hz. rewrite <- Hperm in Hz.
    pose proof (ascending_snoc _ _ Hasc) as Hall.
    rewrite Forall_forall in Hall. by apply Hall.
Qed.

Lemma fmap_mpiJob_alter (pq : PriorityQueue) (i : nat) (p : Z) :
  mpiJob <$> alter (fun it => {| mpiJob := mpiJob it; priority := p |}) i pq
  = mpiJob <$> pq.
Proof.
  revert i. induction pq as [|it pq IH]; intros [|i]; simpl; try reflexivity.
  f_equal. apply IH.
Qed.

(** X6: [update] changes a priority and sorts again: the queue is in
    ascending order afterwards and holds the same jobs as before. *)
Theorem update_sorts_and_keeps (pq : PriorityQueue) (i : nat) (p : Z) :
  ascending (update pq i p) /\ mpiJob <$> update pq i p ≡ₚ mpiJob <$> pq.
Proof.
  split; [apply SortFunc_ascending|].
  unfold update. rewrite (fmap_Permutation _ _ _ (SortFunc_Permutation _ _)).
  by rewrite fmap_mpiJob_alter.
Qed.

Lemma DeepCopy_loop_nil (idx : nat) (items : list Item) (n : nat) :
  (idx < n)%nat -> items <> [] ->
  DeepCopy_loop idx items (replicate n None) = None.
Proof.
  intros Hidx Hne. destruct items as [|item items]; [done|]. simpl.
  by rewrite lookup_replicate_2.
Qed.

(** X7: [PriorityQueue.DeepCopy] returns only for the empty queue: on any
    other queue its first store goes through a nil pointer and panics. *)
Theorem DeepCopy_panics (pq : PriorityQueue) :
  DeepCopy pq = None <-> pq <> [].
Proof.
  unfold DeepCopy. split.
  - intros H ->. discriminate.
  - intros H. apply DeepCopy_loop_nil; [|exact H].
    destruct pq; [done|simpl; lia].
Qed.

(** ** The order of strings and sorting *)

Lemma Ascii_compare_N (a b : ascii) :
  Ascii.compare a b = N.compare (N_of_ascii a) (N_of_ascii b).
Proof. reflexivity. Qed.

Lemma String_compare_trans (a b c : string) :
  String.compare a b <> Gt -> String.compare b c <> Gt -> String.compare a c <> Gt.
Proof.
  revert b c. induction a as [|x a IH]; intros [|y b] [|z c]; simpl; try congruence.
  rewrite !Ascii_compare_N.
  destruct (N.compare_spec (N_of_ascii x) (N_of_ascii y)),
           (N.compare_spec (N_of_ascii y) (N_of_ascii z)),
           (N.compare_spec (N_of_ascii x) (N_of_ascii z));
    try congruence; try lia; try apply IH.
Qed.

Lemma string_le_compare (a b : string) : string_le a b <-> String.compare a b <> Gt.
Proof. unfold string_le, compare_string. destruct (String.compare a b); split; (congruence || lia). Qed.

Lemma string_le_trans (a b c : string) : string_le a b -> string_le b c -> string_le a c.
Proof. rewrite !string_le_compare. apply String_compare_trans. Qed.

Lemma string_le_total (a b : string) : string_le a b \/ string_le b a.
Proof.
  rewrite !string_le_compare, (String.compare_antisym b a).
  destruct (String.compare a b); simpl; (by left) || (by right).
Qed.

Lemma string_le_antisym (a b : string) : string_le a b -> string_le b a -> a = b.
Proof.
  rewrite !string_le_compare, (String.compare_antisym b a).
  destruct (String.compare a b) eqn:E; simpl; try congruence.
  intros _ _. by apply String.compare_eq_iff.
Qed.

Section SortFuncSorted.

Context {A : Type} (cmp : A -> A -> Z).

Variable R : A -> A -> Prop.

Hypothesis cmp_R : forall a b, R a b <-> cmp a b <= 0.
Hypothesis cmp_total : forall a b, R a b \/ R b a.
Hypothesis cmp_trans : forall a b c, R a b -> R b c -> R a c.

Lemma sort_insert_sorted (x : A) (l : list A) :
  StronglySorted R l -> StronglySorted R (sort_insert cmp x l).
Proof.
  induction 1 as [|y l Hl IH Hy]; simpl.
  - repeat constructor.
  - destruct (Z.leb_spec (cmp y x) 0) as [Hle|Hgt].
    + constructor; [exact IH|].
      rewrite (sort_insert_Permutation cmp x l). constructor; [by apply cmp_R|done].
    + assert (Hxy : R x y).
      { destruct (cmp_total x y) as [|Hyx]; [done|]. apply cmp_R in Hyx. lia. }
      constructor; [by constructor|]. constructor; [exact Hxy|].
      eapply Forall_impl; [exact Hy|]. intros z Hz. by eapply cmp_trans.
Qed.

Lemma SortFunc_sorted (l : list A) : StronglySorted R (SortFunc cmp l).
Proof.
  unfold SortFunc.
  assert (H : forall acc, StronglySorted R acc ->
            StronglySorted R (foldl (fun acc x => sort_insert cmp x acc) acc l)).
  { induction l as [|x l IH]; intros acc Hacc; simpl; [exact Hacc|].
    apply IH. by apply sort_insert_sorted. }
  apply H. constructor.
Qed.

End SortFuncSorted.

Lemma sorted_strings_unique (l1 l2 : list string) :
  StronglySorted string_le l1 -> StronglySorted string_le l2 -> l1 ≡ₚ l2 -> l1 = l2.
Proof.
  apply StronglySorted_unique_strong. intros x y _ _. apply string_le_antisym.
Qed.

Lemma SortFunc_strings_sorted (l : list string) :
  StronglySorted string_le (SortFunc compare_string l).
Proof.
  apply (SortFunc_sorted compare_string string_le); [done|apply string_le_total|apply string_le_trans].
Qed.

Lemma keysFromData_elem {V} (data : gmap string V) (k : string) :
  k ∈ keysFromData data <-> is_Some (data !! k).
Proof.
  unfold keysFromData. rewrite SortFunc_Permutation, list_elem_of_fmap. split.
  - intros [[k' v] [-> H]]. apply elem_of_map_to_list in H. by exists v.
  - intros [v Hv]. exists (k, v). split; [done|]. by apply elem_of_map_to_list.
Qed.

Lemma keysFromData_NoDup {V} (data : gmap string V) : NoDup (keysFromData data).
Proof.
  unfold keysFromData. rewrite SortFunc_Permutation. apply NoDup_fst_map_to_list.
Qed.

(** X8: [keysFromData] does not depend on the order in which the map hands
    out its keys: any enumeration of the keys sorts to the same list, which
    is in ascending order and holds every key once. *)
Theorem keysFromData_order {V} (data : gmap string V) (order : list string) :
  order ≡ₚ (map_to_list data).*1 ->
  SortFunc compare_string order = keysFromData data /\
  StronglySorted string_le (keysFromData data) /\
  NoDup (keysFromData data) /\
  forall k, k ∈ keysFromData data <-> is_Some (data !! k).
Proof.
  intros Hperm. split; [|split; [|split]].
  - apply sorted_strings_unique; try apply SortFunc_strings_sorted.
    unfold keysFromData. by rewrite !SortFunc_Permutation.
  - apply SortFunc_strings_sorted.
  - apply keysFromData_NoDup.
  - apply keysFromData_elem.
Qed.

Lemma keysFromData_order_witness :
  SortFunc compare_string ["b"; "a"]%string
    = keysFromData ({[ "a"%string := 1; "b"%string := 2 ]} : gmap string Z) /\
  StronglySorted string_le
    (keysFromData ({[ "a"%string := 1; "b"%string := 2 ]} : gmap string Z)) /\
  NoDup (keysFromData ({[ "a"%string := 1; "b"%string := 2 ]} : gmap string Z)) /\
  forall k, k ∈ keysFromData ({[ "a"%string := 1; "b"%string := 2 ]} : gmap string Z)
            <-> is_Some (({[ "a"%string := 1; "b"%string := 2 ]} : gmap string Z) !! k).
Proof.
  apply (keysFromData_order ({[ "a"%string := 1; "b"%string := 2 ]} : gmap string Z)
           ["b"; "a"]%string).
  vm_compute. apply perm_swap.
Defined.

(** X9: two maps have the same [keysFromData] exactly when they have the
    same keys (the test that decides whether the SSH secret is rewritten). *)
Theorem keysFromData_eq_iff {V} (d1 d2 : gmap string V) :
  keysFromData d1 = keysFromData d2 <->
  forall k, is_Some (d1 !! k) <-> is_Some (d2 !! k).
Proof.
  split.
  - intros E k. by rewrite <- !keysFromData_elem, E.
  - intros H. apply sorted_strings_unique; try apply SortFunc_strings_sorted.
    apply NoDup_Permutation; [apply keysFromData_NoDup..|].
    intros k. by rewrite !keysFromData_elem.
Qed.

(** ** Event messages *)

Lemma length_substring_0 (n : nat) (s : string) :
  String.length (substring 0 n s) = Nat.min n (String.length s).
Proof.
  revert n. induction s as [|c s IH]; intros [|n]; simpl; try reflexivity.
  by rewrite IH.
Qed.

Lemma String_length_append (s t : string) :
  String.length (s +:+ t) = (String.length s + String.length t)%nat.
Proof. induction s as [|c s IH]; simpl; [reflexivity|by rewrite IH]. Qed.

(** X10: [truncateMessage] never returns more than [eventMessageLimit]
    bytes, returns a message within the limit as it is, and is idempotent. *)
Theorem truncateMessage_limit (message : string) :
  String.length (truncateMessage message)
    = Nat.min (String.length message) eventMessageLimit /\
  truncateMessage (truncateMessage message) = truncateMessage message.
Proof.
  assert (H : String.length (truncateMessage message)
              = Nat.min (String.length message) eventMessageLimit).
  { unfold truncateMessage.
    destruct (Nat.leb_spec (String.length message) eventMessageLimit) as [Hle|Hgt].
    - lia.
    - rewrite String_length_append, length_substring_0.
      change (String.length "...") with 3%nat. unfold eventMessageLimit in *. lia. }
  split; [exact H|].
  unfold truncateMessage at 1.
  destruct (Nat.leb_spec (String.length (truncateMessage message)) eventMessageLimit)
    as [Hle|Hgt]; [reflexivity|]. lia.
Qed.

(** ** Signalling, from the controller to the client *)

(** X11: with arguments that the client can take (a host name that fits its
    buffer, an old count between 0 and [INT_MAX - 5]), [signalRescale]
    returns nil exactly when the client is installed, the two counts
    differ, and the connection, the request and the reply all succeed. *)
Theorem signalRescale_nil_iff (installed : bool) (server : RescaleClient.CcsServer)
    (ipAddr : string) (port oldProcs newProcs : Z) :
  (String.length ipAddr < 255)%nat ->
  in_int32 port -> 0 <= oldProcs <= INT_MAX - 5 -> in_int32 newProcs ->
  signalRescale installed server ipAddr port oldProcs newProcs = None <->
  installed = true /\ oldProcs <> newProcs /\
  RescaleClient.CcsConnect server = true /\
  RescaleClient.CcsSendRequest server = true /\
  RescaleClient.CcsRecvResponse server = true.
Proof.
  intros Hip Hport Hold Hnew.
  assert (Hold' : in_int32 oldProcs) by (unfold in_int32, INT_MIN, INT_MAX in *; lia).
  unfold signalRescale, CombinedOutput.
  destruct installed; [|split; [discriminate | intros [? _]; discriminate]].
  unfold RescaleClient.main. cbn [length Z.of_nat Pos.of_succ_nat Pos.succ Z.ltb Z.compare
    Pos.compare Pos.compare_cont lookup list_lookup mbind option_bind].
  replace (negb (Z.of_nat (String.length ipAddr) <? RescaleClient.BUF)) with false.
  2:{ symmetry. apply negb_false_iff, Z.ltb_lt. unfold RescaleClient.BUF. lia. }
  rewrite !sscanf_d_Sprint by assumption. cbn [mbind option_bind].
  unfold RescaleClient.connect_and_send. cbn [mbind option_bind].
  rewrite bool_decide_eq_true_2 by (unfold INT_MAX in *; lia).
  destruct (Z.gtb_spec newProcs oldProcs) as [Hgt|Hle];
    [|destruct (Z.gtb_spec oldProcs newProcs) as [Hgt|Hle']].
  3:{ assert (oldProcs = newProcs) by lia. simpl. split; [discriminate|]. tauto. }
  all: destruct server as [[] [] []]; simpl; split;
    first [ discriminate | tauto | intros; repeat split; (reflexivity || lia)
          | intros (_ & _ & ? & ? & ?); discriminate ].
Qed.

Lemma signalRescale_nil_iff_witness :
  signalRescale true (launcherServer true) "10.0.0.1" ccsPort 4 2 = None <->
  true = true /\ 4 <> 2 /\
  RescaleClient.CcsConnect (launcherServer true) = true /\
  RescaleClient.CcsSendRequest (launcherServer true) = true /\
  RescaleClient.CcsRecvResponse (launcherServer true) = true.
Proof.
  apply (signalRescale_nil_iff true (launcherServer true) "10.0.0.1" ccsPort 4 2);
    vm_compute; (lia || (split; discriminate)).
Defined.

(** ** Worker names and index labels *)

Lemma nb_digits_string_of_uint (d : Decimal.uint) :
  Decimal.nb_digits d = String.length (NilEmpty.string_of_uint d).
Proof. induction d; simpl; congruence. Qed.

Lemma Atoi_digits (neg : bool) (d : Decimal.uint) :
  d <> Decimal.Nil ->
  (if (Nat.eqb (Decimal.nb_digits (scan_digits (NilEmpty.string_of_uint d)))
               (String.length (NilEmpty.string_of_uint d))
       && negb (Nat.eqb (String.length (NilEmpty.string_of_uint d)) 0))%bool
   then Some (Z.of_int (if neg then Decimal.Neg (scan_digits (NilEmpty.string_of_uint d))
                        else Decimal.Pos (scan_digits (NilEmpty.string_of_uint d))))
   else None)
  = Some (Z.of_int (if neg then Decimal.Neg d else Decimal.Pos d)).
Proof.
  intros Hd. rewrite scan_digits_string_of_uint, nb_digits_string_of_uint, Nat.eqb_refl.
  destruct d; try congruence; reflexivity.
Qed.

(** What [fmt.Sprint] prints of an integer, [strconv.Atoi] reads back. *)
Lemma Atoi_Sprint (z : Z) : Atoi (Sprint z) = Some z.
Proof.
  unfold Sprint. destruct z as [|p|p].
  - reflexivity.
  - pose proof (DecimalPos.Unsigned.to_uint_nonnil p) as Hn.
    change (Z.to_int (Z.pos p)) with (Decimal.Pos (Pos.to_uint p)).
    assert (Hs : NilZero.string_of_int (Decimal.Pos (Pos.to_uint p))
                 = NilEmpty.string_of_uint (Pos.to_uint p)).
    { unfold NilZero.string_of_int, NilZero.string_of_uint.
      destruct (Pos.to_uint p); congruence. }
    rewrite Hs. unfold Atoi.
    destruct (string_of_uint_head _ Hn) as (c & s & Hc & Hsp & Hm & Hp).
    rewrite Hc, Hm, Hp, <- Hc.
    rewrite (Atoi_digits false) by exact Hn.
    f_equal. change (Z.of_int (Z.to_int (Z.pos p)) = Z.pos p). apply DecimalZ.of_to.
  - pose proof (DecimalPos.Unsigned.to_uint_nonnil p) as Hn.
    change (Z.to_int (Z.neg p)) with (Decimal.Neg (Pos.to_uint p)).
    assert (Hs : NilZero.string_of_int (Decimal.Neg (Pos.to_uint p))
                 = String "-" (NilEmpty.string_of_uint (Pos.to_uint p))).
    { unfold NilZero.string_of_int, NilZero.string_of_uint.
      destruct (Pos.to_uint p); congruence. }
    rewrite Hs. unfold Atoi.
    change (Ascii.eqb "-" "-") with true. cbv iota.
    rewrite (Atoi_digits true) by exact Hn.
    f_equal. change (Z.of_int (Z.to_int (Z.neg p)) = Z.neg p). apply DecimalZ.of_to.
Qed.

(** X12: the replica index that [newWorker] writes into the label of a
    worker pod is the one that [getOrCreateWorker] reads back from it with
    [strconv.Atoi]. *)
Theorem newWorker_index_roundtrip (job : MPIJob) (index : Z) :
  - 2 ^ 63 <= index < 2 ^ 63 ->
  ReplicaIndexLabel (newWorker job index) ≫= Atoi = Some index.
Proof. intros _. simpl. apply Atoi_Sprint. Qed.

Lemma newWorker_index_roundtrip_witness :
  ReplicaIndexLabel (newWorker jobLow 7) ≫= Atoi = Some 7.
Proof. apply (newWorker_index_roundtrip jobLow 7). lia. Defined.

(** ** The hostfile and the discovery script *)

Lemma String_append_assoc (s t u : string) : (s +:+ t) +:+ u = s +:+ (t +:+ u).
Proof.
  induction s as [|c s IH]; [reflexivity|].
  change (String c ((s +:+ t) +:+ u) = String c (s +:+ t +:+ u)). by rewrite IH.
Qed.

Lemma concat_strings_app (l1 l2 : list string) :
  concat_strings (l1 ++ l2) = concat_strings l1 +:+ concat_strings l2.
Proof.
  unfold concat_strings. induction l1 as [|s l1 IH]; simpl; [reflexivity|].
  rewrite IH. symmetry. apply String_append_assoc.
Qed.

Lemma String_append_nil_r (s : string) : s +:+ "" = s.
Proof.
  induction s as [|c s IH]; [reflexivity|].
  change (String c (s +:+ "") = String c s). by rewrite IH.
Qed.

(** X13: scaling a job up by one worker appends the line of the new worker
    to its hostfile and leaves the lines before it as they were. *)
Theorem newConfigMap_grows (job : MPIJob) (workerReplicas : Z) :
  0 <= workerReplicas ->
  zeroS (Data (newConfigMap job (workerReplicas + 1))) hostfileName
  = zeroS (Data (newConfigMap job workerReplicas)) hostfileName
      +:+ hostLine (workerName job workerReplicas) job.
Proof.
  intros Hn. unfold newConfigMap, zeroS. cbn [Data].
  rewrite !lookup_singleton_eq. cbn [default].
  rewrite seqZ_app by lia. rewrite fmap_app, concat_strings_app.
  rewrite <- String_append_assoc. f_equal.
  rewrite (seqZ_cons (0 + workerReplicas) 1) by lia. rewrite (seqZ_nil _ (Z.pred 1)) by lia.
  unfold concat_strings. cbn [fmap list_fmap foldr]. rewrite String_append_nil_r.
  by rewrite Z.add_0_l.
Qed.

Lemma newConfigMap_grows_witness :
  zeroS (Data (newConfigMap jobLow (2 + 1))) hostfileName
  = zeroS (Data (newConfigMap jobLow 2)) hostfileName
      +:+ hostLine (workerName jobLow 2) jobLow.
Proof. apply (newConfigMap_grows jobLow 2). lia. Defined.

Lemma compare_name_string (a b : Pod) : compare_name a b = compare_string (podName a) (podName b).
Proof. reflexivity. Qed.

Lemma sorted_names (pods : list Pod) :
  StronglySorted string_le (podName <$> SortFunc compare_name pods).
Proof.
  apply (StronglySorted_fmap podName (fun a b => compare_name a b <= 0)).
  - intros a b H. exact H.
  - apply SortFunc_sorted.
    + done.
    + intros a b. apply string_le_total.
    + intros a b c. apply string_le_trans.
Qed.

(** X14: the discovery script that [updateDiscoverHostsInConfigMap] writes
    does not depend on the order in which the running pods are listed, and
    the hostfile entry of the ConfigMap is left as it was. *)
Theorem updateDiscoverHosts_order (configMap : ConfigMap) (job : MPIJob)
    (pods1 pods2 : list Pod) :
  pods1 ≡ₚ pods2 ->
  updateDiscoverHostsInConfigMap configMap job pods1
  = updateDiscoverHostsInConfigMap configMap job pods2 /\
  Data (updateDiscoverHostsInConfigMap configMap job pods1) !! hostfileName
  = Data configMap !! hostfileName.
Proof.
  intros Hperm. split.
  - unfold updateDiscoverHostsInConfigMap.
    assert (E : podName <$> SortFunc compare_name pods1
                = podName <$> SortFunc compare_name pods2).
    { apply sorted_strings_unique; try apply sorted_names.
      by rewrite !SortFunc_Permutation, Hperm. }
    assert (E' : forall l : list Pod,
              (fun p => echoLine (podName p) job) <$> l
              = (fun n => echoLine n job) <$> (podName <$> l)).
    { intros l. by rewrite <- list_fmap_compose. }
    by rewrite !E', E.
  - unfold updateDiscoverHostsInConfigMap. cbn [Data].
    by rewrite lookup_insert_ne.
Qed.

Lemma updateDiscoverHosts_order_witness :
  updateDiscoverHostsInConfigMap (newConfigMap jobLow 2) jobLow
    [workerPod "low" 1; workerPod "low" 0]
  = updateDiscoverHostsInConfigMap (newConfigMap jobLow 2) jobLow
      [workerPod "low" 0; workerPod "low" 1] /\
  Data (updateDiscoverHostsInConfigMap (newConfigMap jobLow 2) jobLow
          [workerPod "low" 1; workerPod "low" 0])
    !! hostfileName
  = Data (newConfigMap jobLow 2) !! hostfileName.
Proof.
  apply (updateDiscoverHosts_order (newConfigMap jobLow 2) jobLow
           [workerPod "low" 1; workerPod "low" 0]
           [workerPod "low" 0; workerPod "low" 1]).
  apply perm_swap.
Defined.

(** ** Loops that stay within their slices *)

Lemma for_loop_no_panic {S R} (I : S -> MPIJobController -> Prop)
    (body : S -> M (turn S R)) :
  (forall s c s' c', I s c -> body s c = (Return (Continue s'), c') -> I s' c') ->
  (forall s c msg c', I s c -> body s c <> (Panic msg, c')) ->
  forall fuel s c msg c', I s c -> for_loop fuel body s c <> (Panic msg, c').
Proof.
  intros Hstep Hsafe. induction fuel as [|fuel IH]; intros s c msg c' HI.
  - simpl. unfold diverge. congruence.
  - rewrite for_loop_S.
    destruct (body s c) as [[[s1|s1|r]|msg1|] c1] eqn:E; try congruence.
    + apply IH. by eapply Hstep.
    + by apply Hsafe in E.
Qed.

Lemma for_loop_inr {S R} (Q : R -> Prop) (body : S -> M (turn S R)) :
  (forall s c r c', body s c = (Return (Exit r), c') -> Q r) ->
  forall fuel s c r c', for_loop fuel body s c = (Return (inr r), c') -> Q r.
Proof.
  intros Hexit. induction fuel as [|fuel IH]; intros s c r c'.
  - simpl. unfold diverge. congruence.
  - rewrite for_loop_S.
    destruct (body s c) as [[[s1|s1|r1]|msg1|] c1] eqn:E; try congruence.
    + apply IH.
    + intros [= <- <-]. by eapply Hexit.
Qed.

Section AdmissionSafe.

Variable cl : Cluster.
Variable J : MPIJob.

Lemma lookup_in_range (pq : list Item) (index : Z) :
  (index <? 0) = false -> index < Z.of_nat (length pq) ->
  pq !! Z.to_nat index = None -> False.
Proof.
  intros H0 Hlt Hnone. apply Z.ltb_ge in H0. apply lookup_ge_None in Hnone. lia.
Qed.

Lemma dryRun_Panic (s : Z * Z) (c : MPIJobController) msg c' :
  inRunning s c -> dryRun cl J s c <> (Panic msg, c').
Proof.
  destruct s as [n index]. unfold inRunning, dryRun. simpl. intros Hi.
  unfold mbind, M_bind, bind, get, ret, panic. intros H.
  repeat (cbv beta iota in H; case_match; simplify_eq).
  match goal with H : (_ || _) = false |- _ => apply orb_false_iff in H as [_ H0] end.
  by eapply lookup_in_range.
Qed.

Lemma dryRun_Continue (s s' : Z * Z) (c c' : MPIJobController) :
  inRunning s c -> dryRun cl J s c = (Return (Continue s'), c') -> inRunning s' c'.
Proof.
  destruct s as [n index]. unfold inRunning, dryRun. simpl. intros Hi.
  unfold mbind, M_bind, bind, get, ret, panic. intros H.
  repeat (cbv beta iota in H; case_match; simplify_eq); simpl; lia.
Qed.

Lemma dryRun_Exit (s : Z * Z) (c : MPIJobController) v c' :
  dryRun cl J s c = (Return (Exit v), c') -> exists e, v = (-1, Some e).
Proof.
  destruct s as [n index]. unfold dryRun.
  unfold mbind, M_bind, bind, get, ret, panic. intros H.
  repeat (cbv beta iota in H; case_match; simplify_eq); eauto.
Qed.

Lemma commit_Panic (s : Z * Z) (c : MPIJobController) msg c' :
  inRunning s c -> commit cl J s c <> (Panic msg, c').
Proof.
  destruct s as [n index]. unfold inRunning, commit. simpl. intros Hi.
  unfold mbind, M_bind, bind, get, ret, panic, modify. intros H.
  repeat (cbv beta iota in H; case_match; simplify_eq).
  match goal with H : (_ || _) = false |- _ => apply orb_false_iff in H as [_ H0] end.
  by eapply lookup_in_range.
Qed.

Lemma commit_Continue (s s' : Z * Z) (c c' : MPIJobController) :
  inRunning s c -> commit cl J s c = (Return (Continue s'), c') -> inRunning s' c'.
Proof.
  destruct s as [n index]. unfold inRunning, commit. simpl. intros Hi.
  unfold mbind, M_bind, bind, get, ret, panic, modify. intros H.
  repeat (cbv beta iota in H; case_match; simplify_eq); simpl; lia.
Qed.

Lemma commit_Exit (s : Z * Z) (c : MPIJobController) v c' :
  commit cl J s c = (Return (Exit v), c') -> exists e, v = (-1, Some e).
Proof.
  destruct s as [n index]. unfold commit.
  unfold mbind, M_bind, bind, get, ret, panic, modify. intros H.
  repeat (cbv beta iota in H; case_match; simplify_eq); eauto.
Qed.

Lemma calculateWorkerReplicas_Panic (fuel : nat) (c : MPIJobController) msg c' :
  calculateWorkerReplicas cl fuel J c <> (Panic msg, c').
Proof.
  unfold calculateWorkerReplicas. rewrite bind_unfold. unfold get. cbv beta iota zeta.
  destruct (_ <? MinReplicas J); [|unfold ret; congruence].
  rewrite bind_unfold.
  destruct (for_loop fuel (dryRun cl J) _ c) as [[[[n1 i1]|v1]|msg1|] c1] eqn:E1.
  - pose proof E1 as E1'. apply dryRun_loop_state in E1'. subst c1.
    destruct (n1 >? 0); [unfold ret; congruence|].
    rewrite bind_unfold.
    destruct (for_loop fuel (commit cl J) _ c) as [[[[n2 i2]|v2]|msg2|] c2] eqn:E2;
      try (unfold ret; congruence).
    + destruct (n2 >? 0); unfold ret; congruence.
    + exfalso. revert E2. apply (for_loop_no_panic inRunning).
      * intros. by eapply commit_Continue.
      * intros. by apply commit_Panic.
      * unfold inRunning. simpl. lia.
  - unfold ret. congruence.
  - exfalso. revert E1. apply (for_loop_no_panic inRunning).
    + intros. by eapply dryRun_Continue.
    + intros. by apply dryRun_Panic.
    + unfold inRunning. simpl. lia.
  - congruence.
Qed.

(** X16: when [calculateWorkerReplicas] returns an error the count it
    returns with it is -1, and when it returns without error the count is
    at least the job's [MinReplicas]. *)
Theorem calculateWorkerReplicas_result (fuel : nat) (c : MPIJobController) r err c' :
  calculateWorkerReplicas cl fuel J c = (Return (r, err), c') ->
  match err with
  | Some _ => r = -1
  | None => MinReplicas J <= r
  end.
Proof.
  unfold calculateWorkerReplicas. rewrite bind_unfold. unfold get. cbv beta iota zeta.
  destruct (Z.ltb_spec (int32 (Z.min (freeSlots c - 1) (MaxReplicas J))) (MinReplicas J))
    as [Hlt|Hge]; [|unfold ret; intros [= <- <- <-]; exact Hge].
  rewrite bind_unfold.
  destruct (for_loop fuel (dryRun cl J) _ c) as [[[[n1 i1]|v1]|msg1|] c1] eqn:E1;
    try congruence.
  - destruct (n1 >? 0); [unfold ret; intros [= <- <- <-]; reflexivity|].
    rewrite bind_unfold.
    destruct (for_loop fuel (commit cl J) _ c1) as [[[[n2 i2]|v2]|msg2|] c2] eqn:E2;
      try congruence.
    + destruct (n2 >? 0); unfold ret; intros [= <- <- <-]; [reflexivity|lia].
    + apply (for_loop_inr (fun v => exists e, v = (-1, Some e))) in E2 as [e ->].
      * unfold ret. by intros [= <- <- <-].
      * intros s0 c0 r0 c0'. apply commit_Exit.
  - apply (for_loop_inr (fun v => exists e, v = (-1, Some e))) in E1 as [e ->].
    + unfold ret. by intros [= <- <- <-].
    + intros s0 c0 r0 c0'. apply dryRun_Exit.
Qed.

End AdmissionSafe.


Lemma calculateWorkerReplicas_result_witness :
  match @None error with
  | Some _ => 9 = -1
  | None => MinReplicas jobLow <= 9
  end.
Proof.
  apply (calculateWorkerReplicas_result arrivalCluster jobLow 5 NewMPIJobController
           9 None NewMPIJobController).
  vm_compute. reflexivity.
Defined.

(** X17: admission moves only [latestReplicas], [freeSlots] and the work
    queue: the statuses, both job queues, the rendered hostfiles and the
    deferred actions are the same after [calculateWorkerReplicas] as
    before, however it ends. *)
Theorem calculateWorkerReplicas_frame (cl : Cluster) (fuel : nat) (job : MPIJob)
    (c : MPIJobController) :
  let c' := (calculateWorkerReplicas cl fuel job c).2 in
  jobStatus c' = jobStatus c /\ runningJobs c' = runningJobs c /\
  queuedJobs c' = queuedJobs c /\ configMaps c' = configMaps c /\
  deferredAction c' = deferredAction c /\ oldExpandReplicas c' = oldExpandReplicas c.
Proof.
  cbv zeta. repeat split.
  all: match goal with |- ?proj _ = _ =>
         apply (calculateWorkerReplicas_keeps cl proj); reflexivity end.
Qed.

(** ** The expansion loop *)

Section ExpansionLoop.

Variable cl : Cluster.

Lemma lookup_Z_Some (pq : list Item) (i : Z) :
  0 <= i < Z.of_nat (length pq) -> exists it, pq !! Z.to_nat i = Some it.
Proof. intros H. apply lookup_lt_is_Some_2. lia. Qed.

Lemma expandBody_step (v : expandVars) (c : MPIJobController) r c' :
  prioritiesNonNegative c -> inBounds v c ->
  expandBody cl v c = (r, c') ->
  (exists t, r = Return t /\
     match t with
     | Continue v' => inBounds v' c /\ turnsLeft v' c = turnsLeft v c - 1
     | _ => True
     end).
Proof.
  unfold prioritiesNonNegative, inBounds, turnsLeft.
  intros [HR HQ] Hb. destruct Hb as [Hrb Hqb].
  rewrite Forall_lookup in HR, HQ.
  unfold expandBody. unfold mbind, M_bind, bind, get, ret, panic, modify.
  cbv beta iota zeta.
  destruct (numFreeWorkers v =? 0);
    [intros [= <- <-]; eexists; split; [reflexivity|exact I]|].
  cbn [orb].
  destruct (Z.eqb_spec (idxRunning v) (Z.of_nat (length (runningJobs c)))) as [Er|Er];
  destruct (Z.eqb_spec (idxQueued v) (Z.of_nat (length (queuedJobs c)))) as [Eq|Eq];
    cbn [andb]; [intros [= <- <-]; eexists; split; [reflexivity|exact I]| | |].
  - (* only queued jobs are turnsLeft *)
    destruct (Z.ltb_spec (idxRunning v) (Z.of_nat (length (runningJobs c)))); [lia|].
    destruct (Z.ltb_spec (idxQueued v) (Z.of_nat (length (queuedJobs c)))); [|lia].
    destruct (lookup_Z_Some (queuedJobs c) (idxQueued v)) as [itQ HitQ]; [lia|].
    rewrite HitQ. pose proof (HQ _ _ HitQ) as Hp. cbn [from_option] in *.
    destruct (Z.ltb_spec (-1) (Priority (mpiJob itQ))); [|lia].
    intros Hrun.
    repeat (cbv beta iota zeta in Hrun; case_match; simplify_eq);
      eexists; (split; [reflexivity|]); cbn; try exact I; lia.
  - (* only running jobs are turnsLeft *)
    destruct (Z.ltb_spec (idxRunning v) (Z.of_nat (length (runningJobs c)))); [|lia].
    destruct (Z.ltb_spec (idxQueued v) (Z.of_nat (length (queuedJobs c)))); [lia|].
    destruct (lookup_Z_Some (runningJobs c) (idxRunning v)) as [itR HitR]; [lia|].
    rewrite HitR. pose proof (HR _ _ HitR) as Hp. cbn [from_option] in *.
    destruct (Z.ltb_spec (Priority (mpiJob itR)) (-1)); [lia|].
    intros Hrun.
    repeat (cbv beta iota zeta in Hrun; case_match; simplify_eq);
      eexists; (split; [reflexivity|]); cbn; try exact I; lia.
  - (* jobs of both queues are turnsLeft *)
    destruct (Z.ltb_spec (idxRunning v) (Z.of_nat (length (runningJobs c)))); [|lia].
    destruct (Z.ltb_spec (idxQueued v) (Z.of_nat (length (queuedJobs c)))); [|lia].
    destruct (lookup_Z_Some (runningJobs c) (idxRunning v)) as [itR HitR]; [lia|].
    destruct (lookup_Z_Some (queuedJobs c) (idxQueued v)) as [itQ HitQ]; [lia|].
    rewrite HitR, HitQ. cbn [from_option].
    destruct (Priority (mpiJob itR) <? Priority (mpiJob itQ)); intros Hrun.
    all: repeat (cbv beta iota zeta in Hrun; case_match; simplify_eq);
      eexists; (split; [reflexivity|]); cbn; try exact I; lia.
Qed.

Lemma expand_loop_returns (fuel : nat) (v : expandVars) (c : MPIJobController) :
  prioritiesNonNegative c -> inBounds v c -> turnsLeft v c < Z.of_nat fuel ->
  exists r c', for_loop fuel (expandBody cl) v c = (Return r, c').
Proof.
  revert v c. induction fuel as [|fuel IH]; intros v c Hp Hb Hfuel.
  - unfold inBounds, turnsLeft in *. lia.
  - rewrite for_loop_S.
    destruct (expandBody cl v c) as [r c1] eqn:E.
    assert (HRq : runningJobs c1 = runningJobs c).
    { pose proof (expandBody_keeps cl runningJobs v) as K.
      rewrite <- (K ltac:(reflexivity) ltac:(reflexivity) ltac:(reflexivity) c).
      by rewrite E. }
    assert (HQq : queuedJobs c1 = queuedJobs c).
    { pose proof (expandBody_keeps cl queuedJobs v) as K.
      rewrite <- (K ltac:(reflexivity) ltac:(reflexivity) ltac:(reflexivity) c).
      by rewrite E. }
    destruct (expandBody_step _ _ _ _ Hp Hb E) as (t & -> & Ht).
    destruct t as [v'|v'|e]; [|eauto..].
    destruct Ht as [Hb' Hl]. apply IH.
    + unfold prioritiesNonNegative. by rewrite HRq, HQq.
    + unfold inBounds in *. by rewrite HRq, HQq.
    + unfold turnsLeft in *. rewrite HRq, HQq. lia.
Qed.

End ExpansionLoop.

(** X18: when no job of either queue has a negative priority, the expansion
    loop of the finished branch comes to an end without a panic, after at
    most one turn for every running and every queued job (and one more to
    notice that it is done). *)
Theorem expansion_loop_terminates (cl : Cluster) (fuel : nat) (n : Z)
    (c : MPIJobController) :
  prioritiesNonNegative c ->
  (length (runningJobs c) + length (queuedJobs c) < fuel)%nat ->
  exists r c', for_loop fuel (expandBody cl) (expandStart n) c = (Return r, c').
Proof.
  intros Hp Hfuel. apply expand_loop_returns; [exact Hp| |];
    unfold inBounds, turnsLeft; simpl; lia.
Qed.

Lemma expansion_loop_terminates_witness :
  exists r c',
    for_loop 4 (expandBody (completionCluster CleanPodPolicyRunning)) (expandStart 4)
      (completionState CleanPodPolicyRunning) = (Return r, c').
Proof.
  apply (expansion_loop_terminates (completionCluster CleanPodPolicyRunning) 4 4
           (completionState CleanPodPolicyRunning)).
  - split; vm_compute; repeat constructor; discriminate.
  - vm_compute. lia.
Defined.

(** X19: a waiting job with a negative priority stops the expansion loop
    with a panic when no job is running: the loop then takes the entry of
    the running jobs, which is still nil ([-1 < priority] is false). *)
Theorem expansion_negative_priority (cl : Cluster) (fuel : nat) (n : Z)
    (c : MPIJobController) (it : Item) (rest : list Item) :
  n <> 0 -> runningJobs c = [] -> queuedJobs c = it :: rest ->
  Priority (mpiJob it) < 0 ->
  for_loop (S fuel) (expandBody cl) (expandStart n) c
  = (Panic "nil pointer dereference", c).
Proof.
  intros Hn HR HQ Hp. rewrite for_loop_S.
  unfold expandBody, expandStart. unfold mbind, M_bind, bind, get, ret, panic.
  cbv beta iota zeta. cbn [numFreeWorkers idxRunning idxQueued itRunning itQueued].
  rewrite HR, HQ. destruct (Z.eqb_spec n 0) as [|_]; [done|].
  assert (E : (-1 <? Priority (mpiJob it)) = false) by (apply Z.ltb_ge; lia).
  change (Z.of_nat (length (@nil Item))) with 0.
  change (Z.of_nat (length (it :: rest))) with (Z.pos (Pos.of_succ_nat (length rest))).
  change (0 =? 0) with true.
  change (0 =? Z.pos (Pos.of_succ_nat (length rest))) with false.
  change (0 <? 0) with false.
  change (0 <? Z.pos (Pos.of_succ_nat (length rest))) with true.
  cbn [orb andb]. cbv beta iota zeta.
  change (Z.to_nat 0) with 0%nat. cbn [lookup list_lookup from_option].
  rewrite E. reflexivity.
Qed.

Lemma expansion_negative_priority_witness :
  for_loop 1 (expandBody arrivalCluster) (expandStart 10)
    (set_queuedJobs (fun _ => [item (job "neg" (-1) 1 2 CleanPodPolicyRunning false)])
       NewMPIJobController)
  = (Panic "nil pointer dereference",
     set_queuedJobs (fun _ => [item (job "neg" (-1) 1 2 CleanPodPolicyRunning false)])
       NewMPIJobController).
Proof.
  apply (expansion_negative_priority arrivalCluster 0 10
           (set_queuedJobs (fun _ => [item (job "neg" (-1) 1 2 CleanPodPolicyRunning false)])
              NewMPIJobController)
           (item (job "neg" (-1) 1 2 CleanPodPolicyRunning false)) []).
  - lia.
  - reflexivity.
  - reflexivity.
  - simpl. lia.
Defined.

(** ** The queue of waiting jobs *)

Section CheckJobQueue.

Variable cl : Cluster.

Lemma checkJobQueueBody_cases (fuel : nat) (index : Z) (c : MPIJobController) r c' :
  inQueue index c ->
  checkJobQueueBody cl fuel index c = (r, c') ->
  (forall msg, r <> Panic msg) /\
  (forall index', r = Return (Continue index') -> inQueue index' c').
Proof.
  unfold inQueue. intros Hi. unfold checkJobQueueBody.
  rewrite bind_unfold. unfold get. cbv beta iota zeta.
  destruct (Z.eqb_spec index (Z.of_nat (length (queuedJobs c)))) as [|Hne].
  { unfold ret. intros [= <- <-]. split; congruence. }
  destruct (lookup_Z_Some (queuedJobs c) index) as [it Hit]; [lia|].
  rewrite Hit. rewrite bind_unfold.
  destruct (calculateWorkerReplicas cl fuel (mpiJob it) c) as [[[n e]|msg|] c1] eqn:E.
  - assert (Hq : queuedJobs c1 = queuedJobs c).
    { pose proof (calculateWorkerReplicas_keeps cl queuedJobs fuel (mpiJob it)) as K.
      rewrite <- (K ltac:(reflexivity) ltac:(reflexivity) ltac:(reflexivity) c).
      by rewrite E. }
    unfold mbind, M_bind, bind, modify, ret. cbv beta iota zeta.
    destruct e as [e|]; cbv beta iota zeta; intros [= <- <-].
    + split; [congruence|]. intros ? [= <-]. cbn [queuedJobs set_latestReplicas].
      rewrite Hq. lia.
    + split; [congruence|]. intros ? [= <-].
      cbn [queuedJobs set_latestReplicas set_queuedJobs AddRateLimited].
      rewrite Hq. case_match.
      * rewrite length_app, length_take, length_drop. lia.
      * rewrite length_take. lia.
  - by apply calculateWorkerReplicas_Panic in E.
  - intros [= <- <-]. split; congruence.
Qed.

Lemma checkJobQueue_Panic (fuel : nat) (c : MPIJobController) msg c' :
  checkJobQueue cl fuel c <> (Panic msg, c').
Proof.
  unfold checkJobQueue. rewrite bind_unfold.
  destruct (for_loop fuel (checkJobQueueBody cl fuel) 0 c) as [[r|msg1|] c1] eqn:E;
    try (unfold ret; congruence).
  exfalso. revert E. apply (for_loop_no_panic inQueue).
  - intros s c0 s' c0' HI Hb.
    by apply (checkJobQueueBody_cases _ _ _ _ _ HI Hb).
  - intros s c0 msg0 c0' HI Hb.
    by apply (checkJobQueueBody_cases _ _ _ _ _ HI Hb) with msg0.
  - unfold inQueue. lia.
Qed.

End CheckJobQueue.

(** X20: [checkJobQueue] never panics: its index stays inside [queuedJobs]
    while entries are taken out under it, and the admissions it runs do not
    panic either. *)
Theorem checkJobQueue_no_panic (cl : Cluster) (fuel : nat) (c : MPIJobController) :
  forall msg c', checkJobQueue cl fuel c <> (Panic msg, c').
Proof. intros msg c'. apply checkJobQueue_Panic. Qed.

(** ** Worker pods and the ConfigMap *)

Section Workers.

Variable cl : Cluster.

Lemma releasedWorkers_bounds (job : MPIJob) :
  0 <= releasedWorkers cl job <= Z.max 0 (MaxReplicas job).
Proof.
  unfold releasedWorkers. split; [lia|].
  pose proof (length_filter (fun i => releasesSlot cl job i = true) (seqZ 0 (MaxReplicas job))) as H.
  rewrite length_seqZ in H. lia.
Qed.

Lemma getPod_name (job : MPIJob) (name : string) (pod : Pod) :
  getPod cl job name = Some pod -> podName pod = name.
Proof.
  unfold getPod. intros H. apply find_some in H as [_ H]. by apply String.eqb_eq in H.
Qed.

Lemma addWorker_cases (job : MPIJob) (i : Z) (c : MPIJobController) :
  exists r c',
    addWorker cl job i c = (Return r, c') /\
    match r with
    | (Some pod, None) => podName pod = workerName job i
    | (None, Some _) => True
    | _ => False
    end.
Proof.
  unfold addWorker. destruct (getPod cl job (workerName job i)) as [pod|] eqn:E.
  - apply getPod_name in E. destruct (podControlled pod); simpl;
      eexists _, _; (split; [reflexivity|]); done.
  - unfold mbind, M_bind, bind, modify, ret. cbv beta iota zeta.
    destruct (createPod cl (workerName job i)); eexists _, _; (split; [reflexivity|]); done.
Qed.

Lemma addWorkers_names (job : MPIJob) (l : list Z) (acc : list Pod)
    (c : MPIJobController) pods c' :
  addWorkers cl job l acc c = (Return (pods, None), c') ->
  podName <$> pods = (podName <$> acc) ++ (workerName job <$> l).
Proof.
  revert acc c. induction l as [|i l IH]; intros acc c; simpl.
  - unfold ret. intros [= <- <-]. by rewrite app_nil_r.
  - rewrite bind_unfold.
    destruct (addWorker_cases job i c) as ([[pod|] [e|]] & c1 & -> & Hr); try done.
    intros H. apply IH in H. rewrite H, fmap_app, <- app_assoc. simpl. by rewrite Hr.
Qed.

Lemma deleteScaledDown_nil (latest : Z) (pods : list Pod) l e :
  deleteScaledDown cl latest pods = Some (l, e) -> l = [].
Proof.
  induction pods as [|pod pods IH]; simpl; [discriminate|].
  repeat case_match; try (intros [= <- <-]; reflexivity); exact IH.
Qed.

(** X22: when [getOrCreateWorker] returns without error, the pods it
    returns are the workers 0, 1, ... up to the job's [latestReplicas], in
    that order and under their worker names (or no pod at all, when it met
    a pod without an index label while scaling down). *)
Theorem getOrCreateWorker_names (job : MPIJob) (c : MPIJobController) pods c' :
  getOrCreateWorker cl job c = (Return (pods, None), c') ->
  pods = [] \/
  podName <$> pods = workerName job <$> seqZ 0 (zeroZ (latestReplicas c) (getJobKey job)).
Proof.
  unfold getOrCreateWorker.
  destruct (podListError cl (getJobKey job)); [unfold ret; congruence|].
  rewrite bind_unfold. unfold get. cbv beta iota zeta.
  destruct (_ >? freeSlots c); [unfold ret; congruence|].
  destruct (Z.of_nat (length (podLister cl (getJobKey job))) >? _).
  - destruct (deleteScaledDown cl _ _) as [[l e]|] eqn:E.
    + apply deleteScaledDown_nil in E as ->. unfold ret. intros [= <- ? ?]. by left.
    + intros H. right. by apply addWorkers_names in H.
  - intros H. right. by apply addWorkers_names in H.
Qed.

(** X23: a ConfigMap that [getOrCreateConfigMap] returns without error
    carries the data rendered in this very call (the hostfile for the
    job's [latestReplicas], the script for its running pods), whether it
    was created, updated or found up to date; the controller is unchanged. *)
Theorem getOrCreateConfigMap_data (job : MPIJob) (c : MPIJobController) cm c' :
  getOrCreateConfigMap cl job c = (Return (Some cm, None), c') ->
  exists pods,
    getRunningWorkerPods cl job = inl pods /\
    Data cm = Data (updateDiscoverHostsInConfigMap
                      (newConfigMap job (zeroZ (latestReplicas c) (getJobKey job))) job pods) /\
    c' = c.
Proof.
  unfold getOrCreateConfigMap. rewrite bind_unfold. unfold get. cbv beta iota zeta.
  destruct (getRunningWorkerPods cl job) as [pods|e]; [|unfold ret; congruence].
  intros H. exists pods. split; [reflexivity|]. revert H. unfold ret.
  repeat case_match; intros [= <- <-]; try done.
  match goal with H : negb (bool_decide _) = false |- _ =>
    apply negb_false_iff, bool_decide_eq_true_1 in H end.
  done.
Qed.

End Workers.

(** X21: [cleanUpWorkerPods] always returns; a worker pod that cannot be
    deleted or that belongs to someone else only goes uncounted, and the
    one error that comes back is that of deleting the pod group.
    [freeSlots] grows by one per released worker, at most [MaxReplicas],
    and the rest of the controller is untouched. *)
Theorem cleanUpWorkerPods_result (cl : Cluster) (job : MPIJob) (c : MPIJobController) :
  exists c1,
    cleanUpWorkerPods cl job c = (Return (cleanUpError cl job), c1) /\
    freeSlots c1 = freeSlots c + releasedWorkers cl job /\
    0 <= releasedWorkers cl job <= Z.max 0 (MaxReplicas job) /\
    latestReplicas c1 = latestReplicas c /\ jobStatus c1 = jobStatus c /\
    runningJobs c1 = runningJobs c /\ queuedJobs c1 = queuedJobs c.
Proof.
  destruct (cleanUpWorkerPods_freeSlots cl job c) as (c1 & E & H).
  exists c1. split; [exact E|]. split; [exact H|].
  split; [apply releasedWorkers_bounds|].
  assert (K : forall {X} (proj : MPIJobController -> X),
            (forall f c, proj (set_freeSlots f c) = proj c) -> proj c1 = proj c).
  { intros X proj Hp. pose proof (cleanUpWorkerPods_keeps cl proj job Hp c) as Hk.
    by rewrite E in Hk. }
  repeat split; apply K; reflexivity.
Qed.

Lemma getOrCreateWorker_names_witness :
  podLister readyCluster "default/low" = [] \/
  podName <$> podLister readyCluster "default/low"
  = workerName jobLow <$> seqZ 0 (zeroZ (latestReplicas preemptState) (getJobKey jobLow)).
Proof.
  apply (getOrCreateWorker_names readyCluster jobLow preemptState
           (podLister readyCluster "default/low") preemptState).
  vm_compute. reflexivity.
Defined.

Lemma getOrCreateConfigMap_data_witness :
  exists pods,
    getRunningWorkerPods arrivalCluster jobLow = inl pods /\
    Data (updateDiscoverHostsInConfigMap (newConfigMap jobLow 0) jobLow [])
    = Data (updateDiscoverHostsInConfigMap
              (newConfigMap jobLow
                 (zeroZ (latestReplicas NewMPIJobController) (getJobKey jobLow)))
              jobLow pods) /\
    NewMPIJobController = NewMPIJobController.
Proof.
  apply (getOrCreateConfigMap_data arrivalCluster jobLow NewMPIJobController
           (updateDiscoverHostsInConfigMap (newConfigMap jobLow 0) jobLow [])
           NewMPIJobController).
  vm_compute. reflexivity.
Defined.

Lemma existsb_Push (job : MPIJob) (pq : PriorityQueue) :
  existsb (fun item => String.eqb (getJobKey (mpiJob item)) (getJobKey job))
    (Push pq {| mpiJob := job; priority := Priority job |}) = true.
Proof.
  apply existsb_exists. exists {| mpiJob := job; priority := Priority job |}.
  split; [|apply String.eqb_refl].
  apply list_elem_of_In. rewrite Push_Permutation. apply list_elem_of_here.
Qed.

(** X24: [enqueueJobInternal] is idempotent: a second call right after the
    first finds the job in the queue and changes nothing; and after a call
    the job has an entry in [queuedJobs]. *)
Theorem enqueueJobInternal_idempotent (job : MPIJob) (c : MPIJobController) :
  (enqueueJobInternal job ≫= fun _ => enqueueJobInternal job) c
  = enqueueJobInternal job c /\
  getJobKey job ∈ keysOf (queuedJobs (enqueueJobInternal job c).2).
Proof.
  rewrite bind_unfold. unfold enqueueJobInternal. rewrite !bind_unfold. unfold get.
  cbv beta iota zeta.
  destruct (existsb _ (queuedJobs c)) eqn:E.
  - unfold ret at 1 3. cbv beta iota zeta. rewrite bind_unfold. unfold get.
    cbv beta iota zeta. rewrite E. split; [reflexivity|].
    unfold ret. cbn [snd]. apply existsb_exists in E as (it & Hin & Heq).
    apply String.eqb_eq in Heq. rewrite <- Heq. unfold keysOf.
    apply list_elem_of_fmap_2'  with it; [by apply list_elem_of_In|reflexivity].
  - unfold mbind, M_bind, bind, modify, get, ret. cbv beta iota zeta.
    cbn [queuedJobs set_queuedJobs set_jobStatus snd].
    rewrite existsb_Push. split; [reflexivity|].
    unfold keysOf.
    apply list_elem_of_fmap_2' with {| mpiJob := job; priority := Priority job |};
      [|reflexivity].
    rewrite Push_Permutation. apply list_elem_of_here.
Qed.

(** ** Taking a finished job out of the running jobs *)

(** X25: what the removal loop of the finished branch leaves, when it does
    not panic, is the running jobs with some entries taken out and the
    others in their order; with no entry of the job it is the queue as it
    was, and with one entry it is the queue without that entry. *)
Theorem removeRunning_result (key : string) (pq res : PriorityQueue) :
  removeRunning key pq = Some res ->
  res `sublist_of` pq /\
  (entriesOf key pq = [] -> res = pq) /\
  (length (entriesOf key pq) = 1%nat -> res = entriesNotOf key pq).
Proof.
  intros H. split; [by apply (removeRunning_sublist key)|]. split.
  - intros Hnil. rewrite removeRunning_once in H by (rewrite Hnil; simpl; lia).
    injection H as <-. by apply entriesNotOf_all.
  - intros Hone. rewrite removeRunning_once in H by lia. by injection H as <-.
Qed.

Lemma removeRunning_result_witness :
  [item jobB; item jobC] `sublist_of` [item (jobA CleanPodPolicyRunning); item jobB; item jobC] /\
  (entriesOf "default/a" [item (jobA CleanPodPolicyRunning); item jobB; item jobC] = [] ->
   [item jobB; item jobC] = [item (jobA CleanPodPolicyRunning); item jobB; item jobC]) /\
  (length (entriesOf "default/a" [item (jobA CleanPodPolicyRunning); item jobB; item jobC])
   = 1%nat ->
   [item jobB; item jobC]
   = entriesNotOf "default/a" [item (jobA CleanPodPolicyRunning); item jobB; item jobC]).
Proof.
  apply (removeRunning_result "default/a"
           [item (jobA CleanPodPolicyRunning); item jobB; item jobC]
           [item jobB; item jobC]).
  vm_compute. reflexivity.
Defined.

Lemma rangeRemove_skip (key : string) (n todo idx : nat) (arr : list Item) (m : nat) :
  (idx + n <= length arr)%nat ->
  (forall j it, (idx <= j < idx + n)%nat -> arr !! j = Some it ->
                getJobKey (mpiJob it) <> key) ->
  rangeRemove key (n + todo) idx arr m = rangeRemove key todo (idx + n) arr m.
Proof.
  revert idx. induction n as [|n IH]; intros idx Hlen H.
  - simpl. by rewrite Nat.add_0_r.
  - simpl. destruct (lookup_lt_is_Some_2 arr idx) as [it Hit]; [lia|].
    rewrite Hit. destruct (String.eqb_spec (getJobKey (mpiJob it)) key) as [Heq|Hne].
    + exfalso. apply (H idx it); [lia|exact Hit|exact Heq].
    + rewrite IH; [f_equal; lia|lia|]. intros j it' Hj. apply H. lia.
Qed.

(** X26: when the last two running jobs both carry the key of the finished
    job (and no entry before them does), the removal loop panics: after
    the first removal the slice is one shorter, and the second removal
    slices it beyond its end. *)
Theorem removeRunning_twice_panics (key : string) (pre : PriorityQueue) (a b : Item) :
  entriesOf key pre = [] ->
  getJobKey (mpiJob a) = key -> getJobKey (mpiJob b) = key ->
  removeRunning key (pre ++ [a; b]) = None.
Proof.
  intros Hpre Ha Hb. unfold removeRunning.
  rewrite length_app. cbn [length].
  replace (length pre + 2)%nat with (length pre + 2 + 0)%nat at 1 by lia.
  replace (length pre + 2 + 0)%nat with (length pre + (2 + 0))%nat by lia.
  rewrite (rangeRemove_skip key (length pre) (2 + 0) 0).
  2:{ rewrite length_app. lia. }
  2:{ intros j it Hj Hit. rewrite lookup_app_l in Hit by lia.
      by eapply entriesOf_nil_lookup. }
  cbn [Nat.add rangeRemove].
  rewrite list_lookup_middle by reflexivity.
  rewrite <- Ha, String.eqb_refl.
  destruct (Nat.leb_spec (length pre + 1) (length pre + 2)) as [_|]; [|lia].
  rewrite take_app_length.
  replace (length pre + 2 - length pre - 1)%nat with 1%nat by lia.
  replace (length pre + 2 - 1)%nat with (length pre + 1)%nat by lia.
  rewrite !drop_app_ge by lia.
  replace (length pre + 1 - length pre)%nat with 1%nat by lia.
  cbn [drop take app].
  rewrite (lookup_app_r pre) by lia.
  replace (length pre + 1 - length pre)%nat with 1%nat by lia.
  cbn [lookup list_lookup].
  rewrite Ha, Hb, String.eqb_refl.
  destruct (Nat.leb_spec (length pre + 1 + 1) (length pre + 1)) as [|_]; [lia|].
  reflexivity.
Qed.

Lemma removeRunning_twice_panics_witness :
  removeRunning "default/low" ([item jobHigh] ++ [item jobLow; item jobLow]) = None.
Proof.
  apply (removeRunning_twice_panics "default/low" [item jobHigh] (item jobLow) (item jobLow));
    reflexivity.
Defined.
